(** * Token bucket rate limiter (main.go): model and properties

    The Go program keeps a counter of tokens in a [TokenBucket] struct.
    [Allow] takes one token when there is one; the [refill] goroutine adds
    [rate] tokens on every tick of a [time.Ticker] and clamps the counter
    at [capacity]; [Stop] sends on an unbuffered channel on which [refill]
    listens.  All counters are Go [int64] values: they are modelled as [Z]
    with the two's complement wrap-around of Go's [+] and [--] written
    out. *)

From Stdlib Require Import ZArith List Lia Bool.
From Stdlib Require String Ascii.
Import String.StringSyntax.
Open Scope string_scope.
Import ListNotations.
Open Scope Z_scope.

(** ** Go's [int64] *)

Module Int64.

Definition min_int : Z := - 2 ^ 63.
Definition max_int : Z := 2 ^ 63 - 1.
Definition modulus : Z := 2 ^ 64.

(** The value of [z] as an [int64] in range. *)
Definition in_range (z : Z) : Prop := min_int <= z <= max_int.

(** Two's complement reduction: what Go's arithmetic on [int64] keeps of
    the mathematical result. *)
Definition wrap (z : Z) : Z := (z - min_int) mod modulus + min_int.

Definition add (x y : Z) : Z := wrap (x + y).
Definition sub (x y : Z) : Z := wrap (x - y).

End Int64.

(** ** The [TokenBucket] struct

    The four numeric fields of the struct.  [interval] is a
    [time.Duration], an [int64] count of nanoseconds.  The mutex only
    serialises the two critical sections, which are modelled as atomic
    functions; the ticker and the [stop] channel belong to the state of the
    running system, see [System] below. *)

Record TokenBucket : Type := mkTokenBucket {
  capacity : Z;
  tokens : Z;
  rate : Z;
  interval : Z
}.

Definition set_tokens (t : Z) (tb : TokenBucket) : TokenBucket :=
  {| capacity := capacity tb; tokens := t;
     rate := rate tb; interval := interval tb |}.

(** Every field holds an [int64]. *)
Definition well_typed (tb : TokenBucket) : Prop :=
  Int64.in_range (capacity tb) /\ Int64.in_range (tokens tb) /\
  Int64.in_range (rate tb) /\ Int64.in_range (interval tb).

(** [Allow]: under the mutex, [if tb.tokens > 0 { tb.tokens--; return true }]
    and [return false] otherwise.  The result is the returned boolean and
    the bucket after the call. *)
Definition Allow (tb : TokenBucket) : bool * TokenBucket :=
  if tokens tb >? 0
  then (true, set_tokens (Int64.sub (tokens tb) 1) tb)
  else (false, tb).

(** The tick branch of [refill]: [tb.tokens += tb.rate], then
    [if tb.tokens > tb.capacity { tb.tokens = tb.capacity }]. *)
Definition refill_tick (tb : TokenBucket) : TokenBucket :=
  let t := Int64.add (tokens tb) (rate tb) in
  set_tokens (if t >? capacity tb then capacity tb else t) tb.

(** [n] consecutive calls of [Allow], with their results in order. *)
Fixpoint allow_n (n : nat) (tb : TokenBucket) : list bool * TokenBucket :=
  match n with
  | O => ([], tb)
  | S k =>
      let (r, tb1) := Allow tb in
      let (rs, tb2) := allow_n k tb1 in
      (r :: rs, tb2)
  end.

(** [n] consecutive ticks with no call in between. *)
Fixpoint tick_n (n : nat) (tb : TokenBucket) : TokenBucket :=
  match n with
  | O => tb
  | S k => tick_n k (refill_tick tb)
  end.

(** ** The running system

    A bucket lives together with its [refill] goroutine, its ticker and
    its [stop] channel.  [refill] is either waiting in its [select]
    ([Looping]) or has executed [return] ([Exited]). *)

Inductive Goroutine : Type := Looping | Exited.

Record System : Type := mkSystem {
  bucket : TokenBucket;
  (** the [refill] goroutine started by the constructor *)
  refill : Goroutine;
  (** the ticker delivers ticks until [tb.ticker.Stop()] *)
  ticker_active : bool;
  (** callers of [Stop] blocked in the send [tb.stop <- true] *)
  stop_senders : nat;
  (** calls of [Stop] that have returned *)
  stop_returned : nat
}.

Definition with_bucket (tb : TokenBucket) (s : System) : System :=
  {| bucket := tb; refill := refill s; ticker_active := ticker_active s;
     stop_senders := stop_senders s; stop_returned := stop_returned s |}.

(** [time.NewTicker(d)] panics when [d <= 0] and returns a running ticker
    otherwise. *)
Definition NewTicker (d : Z) : option bool :=
  if d <=? 0 then None else Some true.

(** [NewTokenBucket]: the struct literal with [tokens: capacity], a fresh
    ticker and a fresh unbuffered channel, and [go tb.refill()].  [None] is
    the panic of [time.NewTicker]. *)
Definition NewTokenBucket (rate capacity interval : Z) : option System :=
  match NewTicker interval with
  | None => None
  | Some tk =>
      Some {| bucket := mkTokenBucket capacity capacity rate interval;
              refill := Looping;
              ticker_active := tk;
              stop_senders := 0;
              stop_returned := 0 |}
  end.

(** What can happen to a system.  [CallAllow]: some goroutine runs
    [Allow].  [IntervalElapsed]: one more interval of time passes.
    [CallStop]: some goroutine enters [Stop] and offers its value on the
    channel.  [RecvStop]: the [select] of [refill] takes [case <-tb.stop]. *)
Inductive Event : Type := CallAllow | IntervalElapsed | CallStop | RecvStop.

(** One atomic step: the boolean returned to a caller of [Allow], if any,
    and the next state; [None] when the event cannot happen in [s].
    A tick is handled only by a [refill] that is still in its loop, with a
    ticker that still runs.  The channel is unbuffered: a send completes
    only by meeting the receive of [refill], after which [refill] stops
    the ticker and returns.  [RecvStop] stands for the receive together
    with the [tb.ticker.Stop()] and the [return] that follow it: [refill]
    does nothing else in between, and no property below speaks of the
    states between them. *)
Definition step (e : Event) (s : System) : option (option bool * System) :=
  match e with
  | CallAllow =>
      let (r, tb) := Allow (bucket s) in
      Some (Some r, with_bucket tb s)
  | IntervalElapsed =>
      match refill s with
      | Looping =>
          if ticker_active s
          then Some (None, with_bucket (refill_tick (bucket s)) s)
          else Some (None, s)
      | Exited => Some (None, s)
      end
  | CallStop =>
      Some (None,
            {| bucket := bucket s; refill := refill s;
               ticker_active := ticker_active s;
               stop_senders := S (stop_senders s);
               stop_returned := stop_returned s |})
  | RecvStop =>
      match refill s, stop_senders s with
      | Looping, S k =>
          Some (None,
                {| bucket := bucket s; refill := Exited;
                   ticker_active := false;
                   stop_senders := k;
                   stop_returned := S (stop_returned s) |})
      | _, _ => None
      end
  end.

Definition emit (o : option bool) (rs : list bool) : list bool :=
  match o with Some r => r :: rs | None => rs end.

(** A run: the events in order, with the results of the [Allow] calls. *)
Fixpoint exec (tr : list Event) (s : System) : option (list bool * System) :=
  match tr with
  | [] => Some ([], s)
  | e :: tr' =>
      match step e s with
      | None => None
      | Some (o, s1) =>
          match exec tr' s1 with
          | None => None
          | Some (rs, s2) => Some (emit o rs, s2)
          end
      end
  end.

(** The invariant of the counter and the configurations on which no
    addition of [rate] can leave [int64]. *)
Definition bucket_inv (tb : TokenBucket) : Prop :=
  0 <= tokens tb <= capacity tb.

Definition no_overflow (tb : TokenBucket) : Prop :=
  capacity tb + rate tb <= Int64.max_int.

(** A bucket configured with positive numbers that cannot overflow, whose
    counter is within its bounds. *)
Definition healthy (tb : TokenBucket) : Prop :=
  0 < capacity tb /\ 0 < rate tb /\ no_overflow tb /\ bucket_inv tb.

(** A bucket that never had a positive capacity. *)
Definition degenerate (tb : TokenBucket) : Prop :=
  tokens tb <= capacity tb /\ capacity tb <= 0.

(** The three fields meant to be set once. *)
Definition same_config (tb tb' : TokenBucket) : Prop :=
  capacity tb' = capacity tb /\ rate tb' = rate tb /\
  interval tb' = interval tb.

(** ** Counting over runs *)

(** How many calls of [Allow] returned [true]. *)
Fixpoint admitted (rs : list bool) : Z :=
  match rs with
  | [] => 0
  | true :: rs' => 1 + admitted rs'
  | false :: rs' => admitted rs'
  end.

(** How many intervals elapse in a run. *)
Fixpoint ticks (tr : list Event) : Z :=
  match tr with
  | [] => 0
  | IntervalElapsed :: tr' => 1 + ticks tr'
  | _ :: tr' => ticks tr'
  end.

(** How many times [Stop] is entered in a run. *)
Fixpoint stop_calls (tr : list Event) : nat :=
  match tr with
  | [] => O
  | CallStop :: tr' => S (stop_calls tr')
  | _ :: tr' => stop_calls tr'
  end.

(** Like [healthy], but a capacity and a rate of zero are let in. *)
Definition sane (tb : TokenBucket) : Prop :=
  0 <= rate tb /\ no_overflow tb /\ bucket_inv tb.

(** The sends on the channel that have completed: none while [refill]
    has not taken the shutdown signal, one once it has. *)
Definition signal_taken_once (s : System) : Prop :=
  (refill s = Looping /\ stop_returned s = 0%nat) \/
  (refill s = Exited /\ stop_returned s = 1%nat).

(** One interval under saturating demand: the tick, then [k] calls. *)
Definition cycle (k : nat) : list Event :=
  IntervalElapsed :: repeat CallAllow k.

(** ** The HTTP service of [main]

    [main] registers two handlers and serves.  A response is the status
    code given to [w.WriteHeader] and the body written by [fmt.Fprintln],
    which appends a newline. *)

Record Response : Type := mkResponse {
  status : Z;
  body : String.string
}.

Definition StatusOK : Z := 200.
Definition StatusTooManyRequests : Z := 429.

Definition Fprintln (a : String.string) : String.string :=
  String.append a (String.String (Ascii.ascii_of_nat 10) String.EmptyString).

(** The two registered patterns. *)
Inductive Path : Type := Limited | Unlimited.

(** The handler of ["/limited"]: [if limiter.Allow()] answers 200, and 429
    otherwise. *)
Definition limited_handler (s : System) : Response * System :=
  let (ok, tb) := Allow (bucket s) in
  if ok
  then (mkResponse StatusOK (Fprintln "Request was processed."),
        with_bucket tb s)
  else (mkResponse StatusTooManyRequests (Fprintln "Too Many Requests."),
        with_bucket tb s).

(** The handler of ["/unlimited"] does not consult the limiter. *)
Definition unlimited_handler (s : System) : Response * System :=
  (mkResponse StatusOK (Fprintln "Unlimited request was processed."), s).

Definition handle (p : Path) (s : System) : Response * System :=
  match p with
  | Limited => limited_handler s
  | Unlimited => unlimited_handler s
  end.

(** What happens while the server runs: a request for one of the two
    paths is handled, or an interval elapses.  No handler calls [Stop]. *)
Inductive ServerEvent : Type := Request (p : Path) | Interval.

(** The effect of an elapsed interval, as in [step IntervalElapsed]. *)
Definition on_interval (s : System) : System :=
  match step IntervalElapsed s with
  | Some (_, s') => s'
  | None => s
  end.

(** A run of the server: the responses in order, each with its path. *)
Fixpoint serve (evs : list ServerEvent) (s : System)
  : list (Path * Response) * System :=
  match evs with
  | [] => ([], s)
  | Request p :: evs' =>
      let (resp, s1) := handle p s in
      let (out, s2) := serve evs' s1 in
      ((p, resp) :: out, s2)
  | Interval :: evs' => serve evs' (on_interval s)
  end.

(** The events of the limiter behind a run of the server. *)
Fixpoint limiter_trace (evs : list ServerEvent) : list Event :=
  match evs with
  | [] => []
  | Request Limited :: evs' => CallAllow :: limiter_trace evs'
  | Request Unlimited :: evs' => limiter_trace evs'
  | Interval :: evs' => IntervalElapsed :: limiter_trace evs'
  end.

(** The responses given on one path. *)
Fixpoint responses_on (p : Path) (out : list (Path * Response))
  : list Response :=
  match out with
  | [] => []
  | (q, resp) :: out' =>
      match p, q with
      | Limited, Limited | Unlimited, Unlimited => resp :: responses_on p out'
      | _, _ => responses_on p out'
      end
  end.

(** The response the ["/limited"] handler gives for a result of [Allow]. *)
Definition limited_response (ok : bool) : Response :=
  if ok
  then mkResponse StatusOK (Fprintln "Request was processed.")
  else mkResponse StatusTooManyRequests (Fprintln "Too Many Requests.").

(** A run of the server without its requests for ["/unlimited"]. *)
Fixpoint without_unlimited (evs : list ServerEvent) : list ServerEvent :=
  match evs with
  | [] => []
  | Request Unlimited :: evs' => without_unlimited evs'
  | ev :: evs' => ev :: without_unlimited evs'
  end.

(** How many responses carry status 200. *)
Fixpoint count_ok (rs : list Response) : Z :=
  match rs with
  | [] => 0
  | r :: rs' => (if status r =? StatusOK then 1 else 0) + count_ok rs'
  end.

(** How many intervals elapse while the server runs. *)
Fixpoint intervals (evs : list ServerEvent) : Z :=
  match evs with
  | [] => 0
  | Interval :: evs' => 1 + intervals evs'
  | _ :: evs' => intervals evs'
  end.

(** The limiter of [main]: [capacity := 10], [rate := 1],
    [interval := 2 * time.Second], a [time.Second] being 1000000000
    nanoseconds. *)
Definition main_limiter : option System :=
  NewTokenBucket 1 10 (2 * 1000000000).

(** * Properties *)

(** Splits a goal into its conjuncts, without unfolding definitions. *)
Ltac split_conj := repeat match goal with |- _ /\ _ => split end.

(** Reduces projections of records and the counting functions, and leaves
    arithmetic alone. *)
Ltac simpl_fields :=
  cbn [bucket refill ticker_active stop_senders stop_returned with_bucket
       capacity tokens rate interval set_tokens emit admitted ticks
       stop_calls fst snd] in *.

(** ** Arithmetic of [int64] *)

Section Int64Facts.
Import Int64.

Lemma wrap_in_range (z : Z) : in_range (wrap z).
Proof.
  unfold in_range, wrap, min_int, max_int, modulus.
  pose proof (Z.mod_pos_bound (z - - 2 ^ 63) (2 ^ 64) ltac:(lia)). lia.
Qed.

Lemma wrap_small (z : Z) : in_range z -> wrap z = z.
Proof.
  unfold in_range, wrap, min_int, max_int, modulus. intros Hz.
  rewrite Z.mod_small by lia. lia.
Qed.

(** One overflow past [max_int] lands [modulus] lower. *)
Lemma wrap_overflow (z : Z) :
  max_int < z <= max_int + modulus -> wrap z = z - modulus.
Proof.
  unfold wrap, min_int, max_int, modulus. intros Hz.
  replace (z - - 2 ^ 63) with ((z - 2 ^ 64 + 2 ^ 63) + 1 * 2 ^ 64) by lia.
  rewrite Z.mod_add by lia. rewrite Z.mod_small by lia. lia.
Qed.

(** Above [min_int], reduction never yields a larger number. *)
Lemma wrap_le (z : Z) : min_int <= z -> wrap z <= z.
Proof.
  unfold wrap, min_int, modulus. intros Hz.
  pose proof (Z.mod_le (z - - 2 ^ 63) (2 ^ 64) ltac:(lia) ltac:(lia)). lia.
Qed.

End Int64Facts.

(** ** The two critical sections *)

Lemma Allow_takes_token (tb : TokenBucket) :
  Int64.in_range (tokens tb) -> 0 < tokens tb ->
  Allow tb = (true, set_tokens (tokens tb - 1) tb).
Proof.
  intros Hr Hpos. unfold Allow.
  destruct (Z.gtb_spec (tokens tb) 0) as [_ | Hle]; [ | lia ].
  unfold Int64.sub. rewrite wrap_small; [ reflexivity | ].
  unfold Int64.in_range, Int64.min_int in *. lia.
Qed.

Lemma Allow_refuses (tb : TokenBucket) :
  tokens tb <= 0 -> Allow tb = (false, tb).
Proof.
  intros Hle. unfold Allow.
  destruct (Z.gtb_spec (tokens tb) 0); [ lia | reflexivity ].
Qed.

(** [Allow] never raises the counter, whatever the counter holds. *)
Lemma Allow_tokens_le (tb : TokenBucket) :
  tokens (snd (Allow tb)) <= tokens tb.
Proof.
  unfold Allow. destruct (Z.gtb_spec (tokens tb) 0) as [Hpos | Hle]; simpl.
  - unfold Int64.sub.
    pose proof (wrap_le (tokens tb - 1)) as Hw.
    unfold Int64.min_int in Hw. lia.
  - lia.
Qed.

Lemma Allow_frame (tb : TokenBucket) :
  capacity (snd (Allow tb)) = capacity tb /\
  rate (snd (Allow tb)) = rate tb /\
  interval (snd (Allow tb)) = interval tb.
Proof. unfold Allow. destruct (tokens tb >? 0); simpl; auto. Qed.

Lemma Allow_false_unchanged (tb : TokenBucket) :
  fst (Allow tb) = false -> snd (Allow tb) = tb.
Proof. unfold Allow. destruct (tokens tb >? 0); simpl; congruence. Qed.

Lemma Allow_well_typed (tb : TokenBucket) :
  well_typed tb -> well_typed (snd (Allow tb)).
Proof.
  unfold well_typed, Allow. intros (Hc & Ht & Hr & Hi).
  destruct (tokens tb >? 0); simpl; [ | tauto ].
  split; [ assumption | split; [ | tauto ] ].
  unfold Int64.sub. apply wrap_in_range.
Qed.

Lemma refill_tick_tokens (tb : TokenBucket) :
  tokens (refill_tick tb) =
  Z.min (Int64.add (tokens tb) (rate tb)) (capacity tb).
Proof.
  unfold refill_tick; simpl.
  destruct (Z.gtb_spec (Int64.add (tokens tb) (rate tb)) (capacity tb)); lia.
Qed.

Lemma refill_tick_frame (tb : TokenBucket) :
  capacity (refill_tick tb) = capacity tb /\
  rate (refill_tick tb) = rate tb /\
  interval (refill_tick tb) = interval tb.
Proof. unfold refill_tick; simpl; auto. Qed.

Lemma refill_tick_le_capacity (tb : TokenBucket) :
  tokens (refill_tick tb) <= capacity tb.
Proof. rewrite refill_tick_tokens. lia. Qed.

Lemma refill_tick_well_typed (tb : TokenBucket) :
  well_typed tb -> well_typed (refill_tick tb).
Proof.
  unfold well_typed. intros (Hc & Ht & Hr & Hi).
  destruct (refill_tick_frame tb) as (-> & -> & ->).
  split; [ assumption | split; [ | tauto ] ].
  rewrite refill_tick_tokens.
  pose proof (wrap_in_range (tokens tb + rate tb)) as Hw.
  unfold Int64.add, Int64.in_range in *. lia.
Qed.

(** Without overflow the tick is the mathematical clamp. *)
Lemma refill_tick_exact (tb : TokenBucket) :
  Int64.in_range (tokens tb + rate tb) ->
  tokens (refill_tick tb) = Z.min (tokens tb + rate tb) (capacity tb).
Proof.
  intros Hr. rewrite refill_tick_tokens. unfold Int64.add.
  rewrite wrap_small by assumption. reflexivity.
Qed.

(** ** Steps of the system *)

Lemma step_CallAllow (s : System) :
  step CallAllow s =
  Some (Some (fst (Allow (bucket s))), with_bucket (snd (Allow (bucket s))) s).
Proof. unfold step. destruct (Allow (bucket s)); reflexivity. Qed.

(** Every step leaves the bucket alone, or is [Allow], or is a tick. *)
Lemma step_bucket (e : Event) (s s' : System) (o : option bool) :
  step e s = Some (o, s') ->
  bucket s' = bucket s \/
  (e = CallAllow /\ bucket s' = snd (Allow (bucket s))) \/
  (e = IntervalElapsed /\ refill s = Looping /\
   bucket s' = refill_tick (bucket s)).
Proof.
  destruct e.
  - rewrite step_CallAllow. intros [= <- <-]. right; left; auto.
  - simpl. destruct (refill s) eqn:Hg; [ destruct (ticker_active s) | ];
      intros [= <- <-]; auto.
  - simpl. intros [= <- <-]; auto.
  - simpl. destruct (refill s); [ destruct (stop_senders s) | ];
      try discriminate. intros [= <- <-]; auto.
Qed.

(** Neither half of [Stop] touches the bucket. *)
Lemma stop_steps_keep_bucket (e : Event) (s s' : System) (o : option bool) :
  e = CallStop \/ e = RecvStop ->
  step e s = Some (o, s') -> bucket s' = bucket s.
Proof.
  intros [-> | ->]; simpl.
  - intros [= <- <-]. reflexivity.
  - destruct (refill s); [ destruct (stop_senders s) | ];
      try discriminate. intros [= <- <-]. reflexivity.
Qed.

Lemma with_bucket_same (s : System) : with_bucket (bucket s) s = s.
Proof. destruct s; reflexivity. Qed.

Lemma exec_cons (e : Event) (tr : list Event) (s s2 : System)
      (rs : list bool) :
  exec (e :: tr) s = Some (rs, s2) ->
  exists o s1 rs', step e s = Some (o, s1) /\
                   exec tr s1 = Some (rs', s2) /\ rs = emit o rs'.
Proof.
  cbn [exec]. destruct (step e s) as [[o s1] | ]; [ | discriminate ].
  destruct (exec tr s1) as [[rs' s2'] | ] eqn:Hrun; [ | discriminate ].
  intros [= <- <-]. exists o, s1, rs'. auto.
Qed.

Lemma exec_app (tr1 tr2 : list Event) (s : System) :
  exec (tr1 ++ tr2) s =
  match exec tr1 s with
  | None => None
  | Some (rs1, s1) =>
      match exec tr2 s1 with
      | None => None
      | Some (rs2, s2) => Some (rs1 ++ rs2, s2)
      end
  end.
Proof.
  revert s. induction tr1 as [ | e tr1 IH]; intros s; cbn [exec app].
  - destruct (exec tr2 s) as [[rs2 s2] | ]; reflexivity.
  - destruct (step e s) as [[o s1] | ]; [ | reflexivity ].
    rewrite IH. destruct (exec tr1 s1) as [[rs1 s1'] | ]; [ | reflexivity ].
    destruct (exec tr2 s1') as [[rs2 s2] | ]; [ | reflexivity ].
    destruct o; reflexivity.
Qed.

(** Whatever holds before every step and is kept by every step holds after
    a run; what every step guarantees of an [Allow] result holds of all the
    results of the run. *)
Lemma exec_preserves (P : System -> Prop) (Q : bool -> Prop) :
  (forall e s o s', P s -> step e s = Some (o, s') ->
                    P s' /\ (forall b, o = Some b -> Q b)) ->
  forall tr s rs s', P s -> exec tr s = Some (rs, s') ->
                     P s' /\ Forall Q rs.
Proof.
  intros Hstep tr. induction tr as [ | e tr IH]; intros s rs s' HP Hrun.
  - simpl in Hrun. injection Hrun as <- <-. auto.
  - apply exec_cons in Hrun. destruct Hrun as (o & s1 & rs' & Hs & Hr & ->).
    destruct (Hstep e s o s1 HP Hs) as [HP1 HQ].
    destruct (IH s1 rs' s' HP1 Hr) as [HP' HQ'].
    split; [ assumption | ].
    destruct o as [b | ]; simpl; auto.
Qed.

(** ** The contract of [Allow] *)

(** C2. A call of [Allow] on a bucket whose counter is positive returns
    [true] and leaves the bucket with exactly one token less and nothing
    else changed; on a bucket whose counter is zero or negative it returns
    [false] and leaves the whole bucket as it was.  [Allow] is a total
    function: each call yields one boolean and one next state. *)
Theorem Allow_contract (tb : TokenBucket) :
  Int64.in_range (tokens tb) ->
  (0 < tokens tb -> Allow tb = (true, set_tokens (tokens tb - 1) tb)) /\
  (tokens tb <= 0 -> Allow tb = (false, tb)) /\
  (exists r tb', Allow tb = (r, tb') /\
                 r = (0 <? tokens tb) /\
                 tokens tb' = tokens tb - (if r then 1 else 0)).
Proof.
  intros Hr. split; [ | split ].
  - apply Allow_takes_token; assumption.
  - apply Allow_refuses.
  - destruct (Z.ltb_spec 0 (tokens tb)) as [Hpos | Hle].
    + exists true, (set_tokens (tokens tb - 1) tb).
      rewrite Allow_takes_token by assumption. auto.
    + exists false, tb. rewrite Allow_refuses by assumption.
      repeat split; lia.
Qed.

Lemma Allow_contract_witness :
  Allow (mkTokenBucket 10 3 1 2000000000) =
  (true, mkTokenBucket 10 2 1 2000000000) /\
  Allow (mkTokenBucket 10 0 1 2000000000) =
  (false, mkTokenBucket 10 0 1 2000000000).
Proof.
  split.
  - apply (Allow_contract (mkTokenBucket 10 3 1 2000000000)).
    + unfold Int64.in_range, Int64.min_int, Int64.max_int; simpl; lia.
    + simpl; lia.
  - apply (Allow_contract (mkTokenBucket 10 0 1 2000000000)).
    + unfold Int64.in_range, Int64.min_int, Int64.max_int; simpl; lia.
    + simpl; lia.
Defined.

(** ** The tick *)

(** At the largest capacity a full bucket with [rate = 1] overflows on
    its tick: [tokens += rate] yields the least [int64], the clamp does not
    fire, and the counter is not [min (tokens + rate) capacity]. *)
Lemma refill_tick_not_min_on_overflow :
  let tb := mkTokenBucket Int64.max_int Int64.max_int 1 2000000000 in
  well_typed tb /\
  tokens (refill_tick tb) = Int64.min_int /\
  Z.min (tokens tb + rate tb) (capacity tb) = Int64.max_int /\
  tokens (refill_tick tb) <> Z.min (tokens tb + rate tb) (capacity tb).
Proof.
  cbv zeta. split; [ | split; [ | split ] ].
  - unfold well_typed, Int64.in_range. vm_compute.
    repeat split; discriminate.
  - vm_compute. reflexivity.
  - vm_compute. reflexivity.
  - vm_compute. discriminate.
Qed.

(** C3, amended.  A tick sets the counter to the smaller of [capacity] and
    the [int64] sum [tokens + rate]; when the mathematical sum fits in
    [int64] this is [min (tokens + rate) capacity].  After a tick the
    counter never exceeds [capacity].  A step that raises the counter is a
    tick handled by the looping [refill]: [Allow] never raises it, the two
    steps of [Stop] leave the bucket as it is, and the constructor sets the
    counter to [capacity]. *)
Theorem refill_tick_clamps (tb : TokenBucket) :
  (Int64.in_range (tokens tb + rate tb) ->
   tokens (refill_tick tb) = Z.min (tokens tb + rate tb) (capacity tb)) /\
  tokens (refill_tick tb) =
    Z.min (Int64.add (tokens tb) (rate tb)) (capacity tb) /\
  tokens (refill_tick tb) <= capacity tb /\
  tokens (snd (Allow tb)) <= tokens tb /\
  (forall e s o s',
      step e s = Some (o, s') ->
      tokens (bucket s) < tokens (bucket s') ->
      e = IntervalElapsed /\ refill s = Looping /\
      bucket s' = refill_tick (bucket s)) /\
  (forall e s o s',
      e = CallStop \/ e = RecvStop ->
      step e s = Some (o, s') -> bucket s' = bucket s) /\
  (forall r c d s, NewTokenBucket r c d = Some s -> tokens (bucket s) = c).
Proof.
  split; [ apply refill_tick_exact | ].
  split; [ apply refill_tick_tokens | ].
  split; [ apply refill_tick_le_capacity | ].
  split; [ apply Allow_tokens_le | ].
  split; [ | split ].
  - intros e s o s' Hs Hlt.
    destruct (step_bucket e s s' o Hs) as [Heq | [[-> Heq] | (-> & Hg & Heq)]].
    + rewrite Heq in Hlt. lia.
    + rewrite Heq in Hlt. pose proof (Allow_tokens_le (bucket s)). lia.
    + auto.
  - intros e s o s'. apply stop_steps_keep_bucket.
  - intros r c d s. unfold NewTokenBucket.
    destruct (NewTicker d); [ | discriminate ].
    intros [= <-]. reflexivity.
Qed.

Lemma refill_tick_clamps_witness :
  tokens (refill_tick (mkTokenBucket 10 9 3 2000000000)) = Z.min (9 + 3) 10.
Proof.
  refine (proj1 (refill_tick_clamps (mkTokenBucket 10 9 3 2000000000)) _).
  unfold Int64.in_range, Int64.min_int, Int64.max_int; simpl; lia.
Defined.

(** ** The invariant [0 <= tokens <= capacity] *)

Lemma healthy_in_range (tb : TokenBucket) :
  healthy tb ->
  Int64.in_range (tokens tb) /\ Int64.in_range (tokens tb + rate tb).
Proof.
  unfold healthy, no_overflow, bucket_inv, Int64.in_range, Int64.min_int,
    Int64.max_int.
  lia.
Qed.

Lemma healthy_refill_tick (tb : TokenBucket) :
  healthy tb -> healthy (refill_tick tb).
Proof.
  intros H. destruct (healthy_in_range tb H) as [_ Hsum].
  pose proof (refill_tick_exact tb Hsum) as Ht.
  destruct (refill_tick_frame tb) as (Hc & Hr & _).
  unfold healthy, no_overflow, bucket_inv in *.
  rewrite Hc, Hr, Ht. lia.
Qed.

Lemma healthy_Allow (tb : TokenBucket) :
  healthy tb -> healthy (snd (Allow tb)).
Proof.
  intros H. destruct (healthy_in_range tb H) as [Hr _].
  destruct (Z.lt_ge_cases 0 (tokens tb)) as [Hpos | Hle].
  - rewrite (Allow_takes_token tb Hr Hpos).
    unfold healthy, no_overflow, bucket_inv in *. simpl. lia.
  - rewrite (Allow_refuses tb Hle). exact H.
Qed.

Lemma healthy_step (e : Event) (s s' : System) (o : option bool) :
  healthy (bucket s) -> step e s = Some (o, s') -> healthy (bucket s').
Proof.
  intros H Hs.
  destruct (step_bucket e s s' o Hs) as [-> | [[_ ->] | (_ & _ & ->)]];
    auto using healthy_Allow, healthy_refill_tick.
Qed.

Lemma same_config_step (e : Event) (s s' : System) (o : option bool) :
  step e s = Some (o, s') -> same_config (bucket s) (bucket s').
Proof.
  intros Hs. unfold same_config.
  destruct (step_bucket e s s' o Hs) as [-> | [[_ ->] | (_ & _ & ->)]].
  - auto.
  - apply Allow_frame.
  - apply refill_tick_frame.
Qed.

Lemma same_config_exec (tr : list Event) (s s' : System) (rs : list bool) :
  exec tr s = Some (rs, s') -> same_config (bucket s) (bucket s').
Proof.
  intros Hrun.
  apply (exec_preserves (fun x => same_config (bucket s) (bucket x))
           (fun _ => True)) with (tr := tr) (s := s) (rs := rs);
    [ | unfold same_config; auto | assumption ].
  intros e x o x' (Hc & Hr & Hi) Hs.
  destruct (same_config_step e x x' o Hs) as (Hc' & Hr' & Hi').
  unfold same_config. split; [ | auto ]. repeat split; congruence.
Qed.

(** X12. The side condition cannot be dropped: whenever [capacity + rate]
    leaves [int64], the first tick on the full bucket makes the counter
    negative. *)
Lemma full_bucket_overflows (tb : TokenBucket) :
  well_typed tb -> 0 < capacity tb -> 0 < rate tb ->
  tokens tb = capacity tb -> ~ no_overflow tb ->
  tokens (refill_tick tb) = capacity tb + rate tb - Int64.modulus /\
  tokens (refill_tick tb) < 0.
Proof.
  intros (Hc & _ & Hr & _) Hcpos Hrpos Hfull Hov.
  unfold no_overflow in Hov. rewrite refill_tick_tokens. unfold Int64.add.
  rewrite Hfull, wrap_overflow.
  - unfold Int64.in_range, Int64.max_int, Int64.modulus in *. lia.
  - unfold Int64.in_range, Int64.max_int, Int64.modulus in *. lia.
Qed.

(** A full bucket of the largest capacity, after one interval: the
    constructor's arguments are positive, and the counter is negative. *)
Lemma invariant_broken_by_overflow :
  exists s0 s,
    0 < Int64.max_int /\ 0 < 1 /\
    NewTokenBucket 1 Int64.max_int 2000000000 = Some s0 /\
    exec [IntervalElapsed] s0 = Some ([], s) /\
    tokens (bucket s) = Int64.min_int /\
    ~ (0 <= tokens (bucket s) <= capacity (bucket s)).
Proof.
  eexists. eexists.
  split; [ reflexivity | ].
  split; [ reflexivity | ].
  split; [ reflexivity | ].
  split; [ vm_compute; reflexivity | ].
  split; [ vm_compute; reflexivity | ].
  vm_compute. intros [H _]. apply H. reflexivity.
Qed.

(** The upper bound needs nothing of the configuration: [Allow] never
    raises the counter and the tick clamps it. *)
Lemma capped_step (e : Event) (s s' : System) (o : option bool) :
  tokens (bucket s) <= capacity (bucket s) ->
  step e s = Some (o, s') ->
  tokens (bucket s') <= capacity (bucket s').
Proof.
  intros Hle Hs.
  destruct (step_bucket e s s' o Hs) as [-> | [[_ ->] | (_ & _ & ->)]].
  - exact Hle.
  - destruct (Allow_frame (bucket s)) as (-> & _).
    pose proof (Allow_tokens_le (bucket s)). lia.
  - destruct (refill_tick_frame (bucket s)) as (-> & _).
    apply refill_tick_le_capacity.
Qed.

Lemma capped_exec (tr : list Event) (s s' : System) (rs : list bool) :
  tokens (bucket s) <= capacity (bucket s) ->
  exec tr s = Some (rs, s') ->
  tokens (bucket s') <= capacity (bucket s').
Proof.
  intros Hle Hrun.
  apply (exec_preserves (fun x => tokens (bucket x) <= capacity (bucket x))
           (fun _ => True)) with (tr := tr) (rs := rs) (s' := s') in Hle.
  - tauto.
  - intros e x o x' Hx Hs. split; [ | auto ].
    exact (capped_step e x x' o Hx Hs).
  - exact Hrun.
Qed.

(** C1, amended.  For [capacity > 0] and [rate > 0] (and a positive
    interval, without which [time.NewTicker] panics), the constructor
    returns a bucket with [tokens = capacity], and after every run of
    events from that state, including every sequence of [Allow] calls and
    ticks, [tokens <= capacity]; when [capacity + rate] is within [int64],
    also [0 <= tokens]. *)
Theorem tokens_within_bounds (r c d : Z) :
  0 < c -> 0 < r -> 0 < d ->
  exists s0,
    NewTokenBucket r c d = Some s0 /\
    tokens (bucket s0) = c /\
    forall tr rs s,
      exec tr s0 = Some (rs, s) ->
      capacity (bucket s) = c /\
      tokens (bucket s) <= c /\
      (c + r <= Int64.max_int -> 0 <= tokens (bucket s)).
Proof.
  intros Hc Hr Hd. unfold NewTokenBucket, NewTicker.
  destruct (Z.leb_spec d 0) as [Hle | _]; [ lia | ].
  eexists. split; [ reflexivity | ]. split; [ reflexivity | ].
  intros tr rs s Hrun.
  destruct (same_config_exec tr _ s rs Hrun) as (Hcap & _ & _).
  simpl in Hcap.
  split; [ exact Hcap | ]. split.
  - rewrite <- Hcap. refine (capped_exec tr _ s rs _ Hrun).
    simpl. lia.
  - intros Hsum.
    assert (Hh : healthy (bucket s)).
    { apply (exec_preserves (fun x => healthy (bucket x)) (fun _ => True))
        with (tr := tr) (rs := rs) (s' := s) in Hrun.
      - tauto.
      - intros e x o x' Hx Hs. split; [ | auto ].
        exact (healthy_step e x x' o Hx Hs).
      - unfold healthy, no_overflow, bucket_inv. simpl. lia. }
    unfold healthy, bucket_inv in Hh. tauto.
Qed.

(** With [rate = 1] the bucket of [main] has both bounds; at the largest
    capacity, where the sum leaves [int64], the upper bound is still
    there. *)
Lemma tokens_within_bounds_witness :
  (exists s0,
     NewTokenBucket 1 10 2000000000 = Some s0 /\
     tokens (bucket s0) = 10 /\
     forall tr rs s,
       exec tr s0 = Some (rs, s) ->
       capacity (bucket s) = 10 /\
       tokens (bucket s) <= 10 /\
       (10 + 1 <= Int64.max_int -> 0 <= tokens (bucket s))) /\
  (exists s0,
     NewTokenBucket 1 Int64.max_int 2000000000 = Some s0 /\
     tokens (bucket s0) = Int64.max_int /\
     forall tr rs s,
       exec tr s0 = Some (rs, s) ->
       capacity (bucket s) = Int64.max_int /\
       tokens (bucket s) <= Int64.max_int /\
       (Int64.max_int + 1 <= Int64.max_int -> 0 <= tokens (bucket s))).
Proof.
  split.
  - apply (tokens_within_bounds 1 10 2000000000); lia.
  - apply (tokens_within_bounds 1 Int64.max_int 2000000000);
      unfold Int64.max_int; lia.
Defined.

(** ** Bursts: consecutive calls of [Allow] *)

Lemma allow_n_empty (m : nat) (tb : TokenBucket) :
  tokens tb <= 0 -> allow_n m tb = (repeat false m, tb).
Proof.
  intros Hle. induction m as [ | m IH]; simpl.
  - reflexivity.
  - rewrite (Allow_refuses tb Hle), IH. reflexivity.
Qed.

(** A bucket holding [k] tokens admits exactly [k] calls in a row. *)
Lemma allow_n_drain (k m : nat) (tb : TokenBucket) :
  Int64.in_range (tokens tb) -> tokens tb = Z.of_nat k ->
  allow_n (k + m) tb = (repeat true k ++ repeat false m, set_tokens 0 tb).
Proof.
  revert tb. induction k as [ | k IH]; intros tb Hr Hk.
  - simpl. rewrite allow_n_empty by lia.
    destruct tb as [c t r d]. simpl in Hk. subst t. reflexivity.
  - cbn [Nat.add allow_n repeat app].
    rewrite (Allow_takes_token tb Hr) by lia.
    rewrite IH.
    + reflexivity.
    + simpl. unfold Int64.in_range, Int64.min_int in *. lia.
    + simpl. lia.
Qed.

(** Calls of [Allow] in a row on the system are [allow_n] on its bucket. *)
Lemma exec_CallAllow (n : nat) (s : System) :
  exec (repeat CallAllow n) s =
  Some (fst (allow_n n (bucket s)), with_bucket (snd (allow_n n (bucket s))) s).
Proof.
  revert s. induction n as [ | n IH]; intros s.
  - simpl. rewrite with_bucket_same. reflexivity.
  - cbn [repeat exec allow_n]. rewrite step_CallAllow, IH.
    destruct (Allow (bucket s)) as [r tb1]. simpl.
    destruct (allow_n n tb1) as [rs tb2]. reflexivity.
Qed.

(** C4. For every capacity [c > 0] the constructor returns a full bucket
    (given a positive interval, without which [time.NewTicker] panics); on
    it, with no tick in between, the first [c] calls of [Allow] return
    [true] and call number [c + 1] returns [false]. *)
Theorem burst_of_capacity (r c d : Z) :
  0 < c <= Int64.max_int -> 0 < d ->
  exists s0 s1,
    NewTokenBucket r c d = Some s0 /\
    tokens (bucket s0) = c /\
    exec (repeat CallAllow (Z.to_nat c + 1)) s0 =
      Some (repeat true (Z.to_nat c) ++ [false], s1) /\
    tokens (bucket s1) = 0.
Proof.
  intros Hc Hd. unfold NewTokenBucket, NewTicker.
  destruct (Z.leb_spec d 0) as [Hle | _]; [ lia | ].
  eexists. eexists. split; [ reflexivity | ]. split; [ reflexivity | ].
  rewrite exec_CallAllow. cbn [bucket].
  rewrite allow_n_drain.
  - split; reflexivity.
  - simpl. unfold Int64.in_range, Int64.min_int. lia.
  - simpl. lia.
Qed.

Lemma burst_of_capacity_witness :
  exists s0 s1,
    NewTokenBucket 1 10 2000000000 = Some s0 /\
    tokens (bucket s0) = 10 /\
    exec (repeat CallAllow 11) s0 =
      Some ([true; true; true; true; true; true; true; true; true; true;
             false], s1) /\
    tokens (bucket s1) = 0.
Proof.
  apply (burst_of_capacity 1 10 2000000000);
    unfold Int64.max_int; simpl; lia.
Defined.

(** C5. On a bucket with [capacity > 0] and [rate > 0] whose counter is
    [0], after one tick exactly [min rate capacity] calls of [Allow]
    return [true], and the next one returns [false]. *)
Theorem refill_after_exhaustion (tb : TokenBucket) :
  0 < capacity tb <= Int64.max_int -> 0 < rate tb <= Int64.max_int ->
  tokens tb = 0 ->
  let m := Z.to_nat (Z.min (rate tb) (capacity tb)) in
  tokens (refill_tick tb) = Z.min (rate tb) (capacity tb) /\
  fst (allow_n (m + 1) (refill_tick tb)) = repeat true m ++ [false] /\
  tokens (snd (allow_n (m + 1) (refill_tick tb))) = 0.
Proof.
  intros Hc Hr H0 m.
  assert (Ht : tokens (refill_tick tb) = Z.min (rate tb) (capacity tb)).
  { rewrite refill_tick_exact; rewrite H0; [ reflexivity | ].
    unfold Int64.in_range, Int64.min_int. lia. }
  split; [ exact Ht | ].
  rewrite (allow_n_drain m 1 (refill_tick tb)).
  - split; reflexivity.
  - rewrite Ht. unfold Int64.in_range, Int64.min_int. lia.
  - rewrite Ht. unfold m. lia.
Qed.

Lemma refill_after_exhaustion_witness :
  fst (allow_n 2 (refill_tick (mkTokenBucket 10 0 1 2000000000))) =
  [true; false] /\
  fst (allow_n 4 (refill_tick (mkTokenBucket 3 0 5 2000000000))) =
  [true; true; true; false].
Proof.
  split.
  - refine (proj1 (proj2
      (refill_after_exhaustion (mkTokenBucket 10 0 1 2000000000) _ _ _)));
      unfold Int64.max_int; simpl; lia.
  - refine (proj1 (proj2
      (refill_after_exhaustion (mkTokenBucket 3 0 5 2000000000) _ _ _)));
      unfold Int64.max_int; simpl; lia.
Defined.

(** ** Idle buckets: consecutive ticks *)

Lemma tick_n_healthy (n : nat) (tb : TokenBucket) :
  healthy tb ->
  healthy (tick_n n tb) /\
  same_config tb (tick_n n tb) /\
  tokens (tick_n n tb) =
    Z.min (tokens tb + Z.of_nat n * rate tb) (capacity tb).
Proof.
  revert tb. induction n as [ | n IH]; intros tb H.
  - cbn [tick_n]. unfold same_config, healthy, bucket_inv in *.
    repeat split; try tauto. lia.
  - cbn [tick_n].
    destruct (IH (refill_tick tb) (healthy_refill_tick tb H))
      as (Hh & (Hc & Hr & Hi) & Ht).
    destruct (refill_tick_frame tb) as (Hc' & Hr' & Hi').
    destruct (healthy_in_range tb H) as [_ Hsum].
    rewrite (refill_tick_exact tb Hsum), Hc', Hr' in Ht.
    split; [ exact Hh | ].
    split; [ unfold same_config; repeat split; congruence | ].
    rewrite Ht. unfold healthy, bucket_inv in H. nia.
Qed.

(** With [capacity = 1] and the largest [rate], the first tick overflows:
    one tick is more than [capacity / rate = 0] ticks, and the counter is
    the least [int64], not [capacity]. *)
Lemma idle_bucket_not_full_on_overflow :
  let tb := mkTokenBucket 1 1 Int64.max_int 2000000000 in
  well_typed tb /\
  0 < capacity tb /\ 0 < rate tb /\ 0 <= tokens tb <= capacity tb /\
  capacity tb / rate tb < Z.of_nat 1 /\
  tokens (tick_n 1 tb) = Int64.min_int /\
  tokens (tick_n 1 tb) <> capacity tb.
Proof.
  cbv zeta. unfold well_typed, Int64.in_range.
  vm_compute. repeat split; discriminate.
Qed.

(** Ticks in a row never take the counter above [capacity], whatever the
    rate and whether or not the addition wraps. *)
Lemma tick_n_capped (n : nat) (tb : TokenBucket) :
  tokens tb <= capacity tb ->
  capacity (tick_n n tb) = capacity tb /\
  tokens (tick_n n tb) <= capacity tb.
Proof.
  revert tb. induction n as [ | n IH]; intros tb Hle.
  - cbn [tick_n]. auto.
  - cbn [tick_n].
    destruct (refill_tick_frame tb) as (Hc & _).
    pose proof (refill_tick_le_capacity tb) as Ht.
    rewrite <- Hc in Ht.
    destruct (IH (refill_tick tb) Ht) as (Hc' & Ht').
    rewrite Hc in Hc', Ht'. auto.
Qed.

(** C6, amended.  On a bucket with [capacity > 0], [rate > 0] and
    [0 <= tokens <= capacity], after [n] ticks in a row the counter is at
    most [capacity], for every [n]; when [capacity + rate] is within
    [int64] it is not negative either, and it equals [capacity] for every
    [n > capacity / rate]. *)
Theorem idle_bucket_fills (tb : TokenBucket) (n : nat) :
  0 < capacity tb -> 0 < rate tb ->
  0 <= tokens tb <= capacity tb ->
  tokens (tick_n n tb) <= capacity tb /\
  (capacity tb + rate tb <= Int64.max_int ->
   0 <= tokens (tick_n n tb) /\
   (capacity tb / rate tb < Z.of_nat n ->
    tokens (tick_n n tb) = capacity tb)).
Proof.
  intros Hc Hr Hinv.
  split; [ apply tick_n_capped; lia | ].
  intros Hsum.
  assert (H : healthy tb) by (unfold healthy, no_overflow, bucket_inv; tauto).
  destruct (tick_n_healthy n tb H) as (_ & _ & Ht).
  split.
  - rewrite Ht. nia.
  - intros Hn. rewrite Ht.
    pose proof (Z.mul_succ_div_gt (capacity tb) (rate tb) Hr) as Hdiv.
    nia.
Qed.

(** Four ticks fill an empty bucket of capacity 10 at rate 3; where the
    first tick wraps, the counter is still at most [capacity]. *)
Lemma idle_bucket_fills_witness :
  tokens (tick_n 4 (mkTokenBucket 10 0 3 2000000000)) = 10 /\
  tokens (tick_n 1 (mkTokenBucket 1 1 Int64.max_int 2000000000)) <= 1.
Proof.
  split.
  - refine (proj2 (proj2 (idle_bucket_fills
                            (mkTokenBucket 10 0 3 2000000000) 4 _ _ _) _) _);
      unfold Int64.max_int; simpl; try lia.
    reflexivity.
  - refine (proj1 (idle_bucket_fills
                     (mkTokenBucket 1 1 Int64.max_int 2000000000) 1 _ _ _));
      unfold Int64.max_int; simpl; lia.
Defined.

(** ** Buckets constructed with a capacity that is not positive *)

Lemma degenerate_step (e : Event) (s s' : System) (o : option bool) :
  degenerate (bucket s) -> step e s = Some (o, s') ->
  (degenerate (bucket s') /\ capacity (bucket s') = capacity (bucket s)) /\
  (forall b, o = Some b -> b = false).
Proof.
  intros [Ht Hc] Hs. destruct e.
  - rewrite step_CallAllow, Allow_refuses in Hs by lia.
    simpl in Hs. injection Hs as <- <-. simpl.
    unfold degenerate. repeat split; auto. congruence.
  - destruct (step_bucket _ s s' o Hs) as [-> | [[Hne _] | (_ & _ & ->)]];
      try discriminate.
    + assert (o = None) as ->.
      { simpl in Hs. destruct (refill s); [ destruct (ticker_active s) | ];
          congruence. }
      unfold degenerate. repeat split; auto. discriminate.
    + assert (o = None) as ->.
      { simpl in Hs. destruct (refill s); [ destruct (ticker_active s) | ];
          congruence. }
      pose proof (refill_tick_le_capacity (bucket s)).
      destruct (refill_tick_frame (bucket s)) as (Hc' & _ & _).
      unfold degenerate. rewrite Hc'. repeat split; auto. discriminate.
  - simpl in Hs. injection Hs as <- <-. simpl.
    unfold degenerate. repeat split; auto. discriminate.
  - simpl in Hs. destruct (refill s); [ destruct (stop_senders s) | ];
      try discriminate.
    injection Hs as <- <-. simpl.
    unfold degenerate. repeat split; auto. discriminate.
Qed.

(** C10. The constructor stores its arguments as they are, also a capacity
    that is zero or negative (a positive interval is all it needs, for
    [time.NewTicker] not to panic).  On the bucket it returns for
    [capacity <= 0], [tokens = capacity <= 0], and in every run of events
    from there, with any number of ticks, the counter stays at or below
    [capacity] and every call of [Allow] returns [false]. *)
Theorem nonpositive_capacity_rejects_all (r c d : Z) :
  c <= 0 -> 0 < d ->
  exists s0,
    NewTokenBucket r c d = Some s0 /\
    bucket s0 = mkTokenBucket c c r d /\
    forall tr rs s,
      exec tr s0 = Some (rs, s) ->
      tokens (bucket s) <= c /\ Forall (fun b => b = false) rs.
Proof.
  intros Hc Hd. unfold NewTokenBucket, NewTicker.
  destruct (Z.leb_spec d 0) as [Hle | _]; [ lia | ].
  eexists. split; [ reflexivity | ]. split; [ reflexivity | ].
  intros tr rs s Hrun.
  apply (exec_preserves
           (fun x => degenerate (bucket x) /\ capacity (bucket x) = c)
           (fun b => b = false)) with (tr := tr) (rs := rs) (s' := s) in Hrun.
  - destruct Hrun as [[[Ht _] Hcap] Hrs]. rewrite Hcap in Ht. auto.
  - intros e x o x' [Hx Hcap] Hs.
    destruct (degenerate_step e x x' o Hx Hs) as [[Hx' Hcap'] Ho].
    repeat split; auto; try apply Hx'. congruence.
  - unfold degenerate. simpl. repeat split; lia.
Qed.

Lemma nonpositive_capacity_rejects_all_witness :
  exists s0,
    NewTokenBucket 1 0 2000000000 = Some s0 /\
    bucket s0 = mkTokenBucket 0 0 1 2000000000 /\
    forall tr rs s,
      exec tr s0 = Some (rs, s) ->
      tokens (bucket s) <= 0 /\ Forall (fun b => b = false) rs.
Proof.
  apply (nonpositive_capacity_rejects_all 1 0 2000000000); lia.
Defined.

(** ** The fields that do not change *)

(** C8. A step of the system, be it a call of [Allow], a tick or either
    half of [Stop], leaves [capacity], [rate] and [interval] as they were:
    the bucket after the step is the bucket before it with at most another
    counter.  The steps of [Stop] do not touch the bucket at all, and
    neither does a call of [Allow] that returns [false].  So the three
    fields are the same after every run. *)
Theorem only_tokens_change (e : Event) (s s' : System) (o : option bool) :
  step e s = Some (o, s') ->
  capacity (bucket s') = capacity (bucket s) /\
  rate (bucket s') = rate (bucket s) /\
  interval (bucket s') = interval (bucket s) /\
  bucket s' = set_tokens (tokens (bucket s')) (bucket s) /\
  (e = CallStop \/ e = RecvStop -> bucket s' = bucket s) /\
  (o = Some false -> bucket s' = bucket s) /\
  (forall tr rs s2, exec tr s' = Some (rs, s2) ->
                    same_config (bucket s) (bucket s2)).
Proof.
  intros Hs. destruct (same_config_step e s s' o Hs) as (Hc & Hr & Hi).
  split; [ exact Hc | ]. split; [ exact Hr | ]. split; [ exact Hi | ].
  split; [ | split; [ | split ] ].
  - destruct (bucket s') as [c t r d], (bucket s) as [c0 t0 r0 d0].
    simpl in *. subst. reflexivity.
  - intros He. exact (stop_steps_keep_bucket e s s' o He Hs).
  - intros ->. destruct e.
    + rewrite step_CallAllow in Hs. injection Hs as Hf <-. simpl.
      apply Allow_false_unchanged. exact Hf.
    + simpl in Hs. destruct (refill s); [ destruct (ticker_active s) | ];
        discriminate.
    + simpl in Hs. discriminate.
    + simpl in Hs. destruct (refill s); [ destruct (stop_senders s) | ];
        discriminate.
  - intros tr rs s2 Hrun.
    destruct (same_config_exec tr s' s2 rs Hrun) as (Hc2 & Hr2 & Hi2).
    unfold same_config. repeat split; congruence.
Qed.

Lemma only_tokens_change_witness :
  exists s0 s1 s2,
    NewTokenBucket 1 10 2000000000 = Some s0 /\
    step CallAllow s0 = Some (Some true, s1) /\
    step IntervalElapsed s1 = Some (None, s2) /\
    bucket s1 = mkTokenBucket 10 9 1 2000000000 /\
    capacity (bucket s2) = capacity (bucket s1) /\
    rate (bucket s2) = rate (bucket s1) /\
    interval (bucket s2) = interval (bucket s1).
Proof.
  eexists. eexists. eexists.
  split; [ reflexivity | ].
  split; [ vm_compute; reflexivity | ].
  assert (Hs : step IntervalElapsed
                 (mkSystem (mkTokenBucket 10 9 1 2000000000)
                           Looping true 0 0) =
               Some (None, mkSystem (mkTokenBucket 10 10 1 2000000000)
                                    Looping true 0 0))
    by (vm_compute; reflexivity).
  split; [ exact Hs | ].
  split; [ reflexivity | ].
  destruct (only_tokens_change _ _ _ _ Hs) as (Hc & Hr & Hi & _).
  auto.
Defined.

(** ** After [refill] has returned *)

Lemma exited_step (e : Event) (s s' : System) (o : option bool) :
  refill s = Exited -> step e s = Some (o, s') ->
  refill s' = Exited /\
  tokens (bucket s') <= tokens (bucket s) /\
  stop_returned s' = stop_returned s /\
  (stop_senders s <= stop_senders s')%nat /\
  (e = CallStop -> stop_senders s' = S (stop_senders s)) /\
  (well_typed (bucket s) -> well_typed (bucket s')).
Proof.
  intros Hx Hs. destruct e.
  - rewrite step_CallAllow in Hs. injection Hs as _ <-. simpl.
    split_conj; auto using Allow_tokens_le, Allow_well_typed.
    discriminate.
  - simpl in Hs. rewrite Hx in Hs. injection Hs as _ <-.
    split_conj; auto; try lia. discriminate.
  - simpl in Hs. injection Hs as _ <-. simpl.
    split_conj; auto. lia.
  - simpl in Hs. rewrite Hx in Hs. discriminate.
Qed.

Lemma exited_exec (tr : list Event) (s s' : System) (rs : list bool) :
  refill s = Exited -> exec tr s = Some (rs, s') ->
  refill s' = Exited /\
  tokens (bucket s') <= tokens (bucket s) /\
  stop_returned s' = stop_returned s /\
  (stop_senders s <= stop_senders s')%nat /\
  (well_typed (bucket s) -> well_typed (bucket s')).
Proof.
  intros Hx Hrun.
  apply (exec_preserves
           (fun x => refill x = Exited /\
                     tokens (bucket x) <= tokens (bucket s) /\
                     stop_returned x = stop_returned s /\
                     (stop_senders s <= stop_senders x)%nat /\
                     (well_typed (bucket s) -> well_typed (bucket x)))
           (fun _ => True)) with (tr := tr) (s := s) (rs := rs).
  - intros e x o x' (Hx1 & Ht & Hr & Hn & Hw) Hs.
    destruct (exited_step e x x' o Hx1 Hs) as (Hx2 & Ht' & Hr' & Hn' & _ & Hw').
    split; [ | auto ].
    split; [ exact Hx2 | ]. split; [ lia | ]. split; [ congruence | ].
    split; [ lia | auto ].
  - split_conj; auto; lia.
  - exact Hrun.
Qed.

(** No run from a state in which [refill] has returned contains a receive
    on the channel; every other run is possible. *)
Lemma exited_no_receive (tr : list Event) (s : System) :
  refill s = Exited -> In RecvStop tr -> exec tr s = None.
Proof.
  revert s. induction tr as [ | e tr IH]; intros s Hx Hin; [ destruct Hin | ].
  cbn [exec]. destruct (step e s) as [[o s1] | ] eqn:Hs; [ | reflexivity ].
  destruct (exited_step e s s1 o Hx Hs) as (Hx1 & _).
  destruct Hin as [-> | Hin].
  - simpl in Hs. rewrite Hx in Hs. discriminate.
  - rewrite (IH s1 Hx1 Hin). reflexivity.
Qed.

Lemma exited_enabled (tr : list Event) (s : System) :
  refill s = Exited -> ~ In RecvStop tr ->
  exists rs s', exec tr s = Some (rs, s').
Proof.
  revert s. induction tr as [ | e tr IH]; intros s Hx Hnot.
  - exists [], s. reflexivity.
  - assert (Hs : exists o s1, step e s = Some (o, s1)).
    { destruct e.
      - rewrite step_CallAllow. eauto.
      - simpl. rewrite Hx. eauto.
      - simpl. eauto.
      - exfalso. apply Hnot. left. reflexivity. }
    destruct Hs as (o & s1 & Hs).
    destruct (exited_step e s s1 o Hx Hs) as (Hx1 & _).
    destruct (IH s1 Hx1) as (rs & s' & Hrun).
    { intros Hin. apply Hnot. right. exact Hin. }
    exists (emit o rs), s'. cbn [exec]. rewrite Hs, Hrun. reflexivity.
Qed.

(** C7. Let [refill] take the shutdown signal in a state [s0] whose bucket
    holds [int64] values, giving [s]: the sender's [Stop] has returned and
    [refill] has exited.  Then after every run from [s], with any number
    of elapsed intervals, [refill] is still exited, the counter is at most
    what it was in [s], and over every further run it does not grow.  In
    each of these states [Allow] can be called and does what it always
    does: with a positive counter it returns [true] and takes one token,
    otherwise it returns [false] and changes nothing. *)
Theorem no_refill_after_Stop (s0 s : System) (o : option bool) :
  well_typed (bucket s0) ->
  step RecvStop s0 = Some (o, s) ->
  refill s = Exited /\ ticker_active s = false /\
  stop_returned s = S (stop_returned s0) /\ bucket s = bucket s0 /\
  forall tr1 rs1 s1,
    exec tr1 s = Some (rs1, s1) ->
    refill s1 = Exited /\
    tokens (bucket s1) <= tokens (bucket s) /\
    (forall tr2 rs2 s2, exec tr2 s1 = Some (rs2, s2) ->
                        tokens (bucket s2) <= tokens (bucket s1)) /\
    step IntervalElapsed s1 = Some (None, s1) /\
    (0 < tokens (bucket s1) ->
     step CallAllow s1 =
     Some (Some true,
           with_bucket (set_tokens (tokens (bucket s1) - 1) (bucket s1)) s1)) /\
    (tokens (bucket s1) <= 0 -> step CallAllow s1 = Some (Some false, s1)).
Proof.
  intros Hw Hs.
  assert (Hshape : refill s = Exited /\ ticker_active s = false /\
                   stop_returned s = S (stop_returned s0) /\
                   bucket s = bucket s0).
  { simpl in Hs. destruct (refill s0); [ destruct (stop_senders s0) | ];
      try discriminate.
    injection Hs as _ <-. simpl. auto. }
  destruct Hshape as (Hx & Htk & Hret & Hb).
  repeat (split; [ assumption | ]).
  intros tr1 rs1 s1 Hrun1.
  rewrite <- Hb in Hw.
  destruct (exited_exec tr1 s s1 rs1 Hx Hrun1) as (Hx1 & Hle1 & _ & _ & Hw1).
  specialize (Hw1 Hw).
  split; [ exact Hx1 | ]. split; [ exact Hle1 | ].
  split; [ | split; [ | split ] ].
  - intros tr2 rs2 s2 Hrun2.
    apply (exited_exec tr2 s1 s2 rs2 Hx1 Hrun2).
  - simpl. rewrite Hx1. reflexivity.
  - intros Hpos. rewrite step_CallAllow, Allow_takes_token; [ reflexivity | | exact Hpos ].
    apply Hw1.
  - intros Hle. rewrite step_CallAllow, Allow_refuses by exact Hle.
    simpl. rewrite with_bucket_same. reflexivity.
Qed.

Lemma no_refill_after_Stop_witness :
  let s0 := mkSystem (mkTokenBucket 10 2 1 2000000000) Looping true 1 0 in
  let s := mkSystem (mkTokenBucket 10 2 1 2000000000) Exited false 0 1 in
  step RecvStop s0 = Some (None, s) /\
  forall tr rs s1, exec tr s = Some (rs, s1) -> tokens (bucket s1) <= 2.
Proof.
  intros s0 s.
  assert (Hs : step RecvStop s0 = Some (None, s)) by reflexivity.
  split; [ exact Hs | ].
  intros tr rs s1 Hrun.
  assert (Hw : well_typed (bucket s0)).
  { unfold well_typed, Int64.in_range, Int64.min_int, Int64.max_int.
    simpl. lia. }
  destruct (no_refill_after_Stop s0 s None Hw Hs) as (_ & _ & _ & _ & H).
  destruct (H tr rs s1 Hrun) as (_ & Hle & _).
  exact Hle.
Defined.

(** ** A second [Stop] *)

(** C9. Once [refill] has returned there is no receiver on the unbuffered
    channel: no run contains another receive.  A caller that enters
    [Stop] in such a state joins the blocked senders, and after every run
    that follows, however long, the number of calls of [Stop] that have
    returned is what it was and the caller is still among the blocked
    senders: it waits forever.  Such runs exist for every sequence of the
    other events. *)
Theorem second_Stop_blocks_forever (s : System) :
  refill s = Exited ->
  step RecvStop s = None /\
  (forall tr, In RecvStop tr -> exec (CallStop :: tr) s = None) /\
  (forall tr, ~ In RecvStop tr ->
              exists rs s', exec (CallStop :: tr) s = Some (rs, s')) /\
  (forall tr rs s',
      exec (CallStop :: tr) s = Some (rs, s') ->
      refill s' = Exited /\
      step RecvStop s' = None /\
      stop_returned s' = stop_returned s /\
      (stop_senders s < stop_senders s')%nat).
Proof.
  intros Hx.
  split; [ simpl; rewrite Hx; reflexivity | ].
  split; [ | split ].
  - intros tr Hin. apply exited_no_receive; [ exact Hx | right; exact Hin ].
  - intros tr Hnot. apply exited_enabled; [ exact Hx | ].
    intros [Heq | Hin]; [ discriminate | auto ].
  - intros tr rs s' Hrun.
    apply exec_cons in Hrun. destruct Hrun as (o & s1 & rs' & Hs & Hrun & _).
    destruct (exited_step CallStop s s1 o Hx Hs)
      as (Hx1 & _ & Hr1 & _ & Hn1 & _).
    specialize (Hn1 eq_refl).
    destruct (exited_exec tr s1 s' rs' Hx1 Hrun) as (Hx' & _ & Hr' & Hn' & _).
    split; [ exact Hx' | ].
    split; [ simpl; rewrite Hx'; reflexivity | ].
    split; [ congruence | lia ].
Qed.

(** The first [Stop] on a new bucket does return: [refill] is there to
    receive. *)
Lemma first_Stop_returns (r c d : Z) (s0 : System) :
  NewTokenBucket r c d = Some s0 ->
  exists s1,
    exec [CallStop; RecvStop] s0 = Some ([], s1) /\
    refill s1 = Exited /\ ticker_active s1 = false /\
    stop_returned s1 = 1%nat /\ stop_senders s1 = 0%nat /\
    bucket s1 = bucket s0.
Proof.
  unfold NewTokenBucket. destruct (NewTicker d); [ | discriminate ].
  intros [= <-]. eexists. split; [ reflexivity | ]. simpl. auto.
Qed.

Lemma second_Stop_blocks_forever_witness :
  let s := mkSystem (mkTokenBucket 10 10 1 2000000000) Exited false 0 1 in
  exec [CallStop; RecvStop]
       (mkSystem (mkTokenBucket 10 10 1 2000000000) Looping true 0 0) =
    Some ([], s) /\
  forall tr rs s',
    exec (CallStop :: tr) s = Some (rs, s') ->
    stop_returned s' = 1%nat /\ (0 < stop_senders s')%nat.
Proof.
  intros s. split; [ reflexivity | ].
  intros tr rs s' Hrun.
  assert (Hx : refill s = Exited) by reflexivity.
  destruct (second_Stop_blocks_forever s Hx) as (_ & _ & _ & H).
  destruct (H tr rs s' Hrun) as (_ & _ & Hr & Hn).
  simpl in Hr, Hn. split; [ exact Hr | lia ].
Defined.

(** ** How many calls a run can admit *)

Lemma admitted_emit (o : option bool) (rs : list bool) :
  admitted (emit o rs) = admitted (emit o []) + admitted rs.
Proof. destruct o as [[ | ] | ]; cbn [emit admitted]; lia. Qed.

Lemma admitted_app (rs1 rs2 : list bool) :
  admitted (rs1 ++ rs2) = admitted rs1 + admitted rs2.
Proof.
  induction rs1 as [ | [ | ] rs1 IH]; cbn [app admitted]; lia.
Qed.

Lemma admitted_repeat (b : bool) (n : nat) :
  admitted (repeat b n) = if b then Z.of_nat n else 0.
Proof.
  induction n as [ | n IH]; [ destruct b; reflexivity | ].
  cbn [repeat]. destruct b; cbn [admitted]; lia.
Qed.

Lemma admitted_bounds (rs : list bool) :
  0 <= admitted rs <= Z.of_nat (length rs).
Proof.
  induction rs as [ | [ | ] rs IH]; cbn [admitted length]; lia.
Qed.

Lemma sane_in_range (tb : TokenBucket) :
  sane tb ->
  Int64.in_range (tokens tb) /\ Int64.in_range (tokens tb + rate tb).
Proof.
  unfold sane, no_overflow, bucket_inv, Int64.in_range, Int64.min_int,
    Int64.max_int.
  lia.
Qed.

(** One step of a sane bucket: it stays sane, and what the step admits
    plus what it leaves is at most what there was plus one refill if the
    step is an elapsed interval. *)
Lemma sane_step (e : Event) (s s' : System) (o : option bool) :
  sane (bucket s) -> step e s = Some (o, s') ->
  sane (bucket s') /\
  rate (bucket s') = rate (bucket s) /\
  capacity (bucket s') = capacity (bucket s) /\
  admitted (emit o []) + tokens (bucket s') <=
    tokens (bucket s) + ticks [e] * rate (bucket s).
Proof.
  intros Hsane Hs.
  destruct (sane_in_range _ Hsane) as [Hr Hsum].
  destruct e.
  - rewrite step_CallAllow in Hs. injection Hs as <- <-. cbn [bucket with_bucket].
    destruct (Z.lt_ge_cases 0 (tokens (bucket s))) as [Hpos | Hle].
    + rewrite (Allow_takes_token _ Hr Hpos).
      unfold sane, no_overflow, bucket_inv in *. simpl_fields. lia.
    + rewrite (Allow_refuses _ Hle).
      unfold sane, no_overflow, bucket_inv in *. simpl_fields. lia.
  - simpl in Hs.
    assert (Htick : sane (refill_tick (bucket s)) /\
                    tokens (refill_tick (bucket s)) <=
                    tokens (bucket s) + rate (bucket s)).
    { pose proof (refill_tick_exact _ Hsum) as Ht.
      destruct (refill_tick_frame (bucket s)) as (Hc & Hrt & _).
      unfold sane, no_overflow, bucket_inv in *.
      rewrite Hc, Hrt, Ht. lia. }
    destruct (refill_tick_frame (bucket s)) as (Hc & Hrt & _).
    destruct (refill s); [ destruct (ticker_active s) | ];
      injection Hs as <- <-; simpl_fields;
      unfold sane, bucket_inv in *; split_conj; try tauto; try lia.
  - simpl in Hs. injection Hs as <- <-. simpl_fields.
    unfold sane, bucket_inv in *. split_conj; try tauto; lia.
  - simpl in Hs. destruct (refill s); [ destruct (stop_senders s) | ];
      try discriminate.
    injection Hs as <- <-. simpl_fields.
    unfold sane, bucket_inv in *. split_conj; try tauto; lia.
Qed.

Lemma ticks_cons (e : Event) (tr : list Event) :
  ticks (e :: tr) = ticks [e] + ticks tr.
Proof. destruct e; simpl; lia. Qed.

Lemma sane_exec (tr : list Event) (s s' : System) (rs : list bool) :
  sane (bucket s) -> exec tr s = Some (rs, s') ->
  sane (bucket s') /\
  rate (bucket s') = rate (bucket s) /\
  capacity (bucket s') = capacity (bucket s) /\
  admitted rs + tokens (bucket s') <=
    tokens (bucket s) + ticks tr * rate (bucket s).
Proof.
  revert s rs. induction tr as [ | e tr IH]; intros s rs Hsane Hrun.
  - simpl in Hrun. injection Hrun as <- <-. simpl_fields.
    split_conj; auto; lia.
  - apply exec_cons in Hrun. destruct Hrun as (o & s1 & rs' & Hs & Hrun & ->).
    destruct (sane_step e s s1 o Hsane Hs) as (Hsane1 & Hr1 & Hc1 & Hb1).
    destruct (IH s1 rs' Hsane1 Hrun) as (Hsane' & Hr' & Hc' & Hb').
    rewrite admitted_emit, ticks_cons.
    split; [ exact Hsane' | ].
    split; [ congruence | ]. split; [ congruence | ].
    rewrite Hr1 in Hb'. lia.
Qed.

(** X1. On a bucket with [rate >= 0], [capacity + rate] within [int64]
    and [0 <= tokens <= capacity], a run admits at most the tokens it
    started with plus [rate] for every interval that elapsed in it; what
    it admits and what it leaves together are within that budget. *)
Theorem admissions_within_budget (tr : list Event) (s s' : System)
        (rs : list bool) :
  sane (bucket s) ->
  exec tr s = Some (rs, s') ->
  admitted rs + tokens (bucket s') <=
    tokens (bucket s) + ticks tr * rate (bucket s) /\
  admitted rs <= tokens (bucket s) + ticks tr * rate (bucket s).
Proof.
  intros Hsane Hrun.
  destruct (sane_exec tr s s' rs Hsane Hrun) as (Hsane' & _ & _ & Hb).
  split; [ exact Hb | ].
  unfold sane, bucket_inv in Hsane'. lia.
Qed.

Lemma admissions_within_budget_witness :
  let s := mkSystem (mkTokenBucket 10 1 1 2000000000) Looping true 0 0 in
  exec [CallAllow; CallAllow; IntervalElapsed; CallAllow] s =
    Some ([true; false; true], mkSystem (mkTokenBucket 10 0 1 2000000000)
                                        Looping true 0 0) /\
  forall tr rs s',
    exec tr s = Some (rs, s') -> admitted rs <= 1 + ticks tr * 1.
Proof.
  intros s. split; [ reflexivity | ].
  intros tr rs s' Hrun.
  refine (proj2 (admissions_within_budget tr s s' rs _ Hrun)).
  unfold sane, no_overflow, bucket_inv, Int64.max_int. simpl. lia.
Defined.

Lemma exited_spends_step (e : Event) (s s' : System) (o : option bool) :
  refill s = Exited -> Int64.in_range (tokens (bucket s)) ->
  step e s = Some (o, s') ->
  refill s' = Exited /\ Int64.in_range (tokens (bucket s')) /\
  tokens (bucket s') = tokens (bucket s) - admitted (emit o []) /\
  Z.min 0 (tokens (bucket s)) <= tokens (bucket s').
Proof.
  intros Hx Hr Hs. destruct e.
  - rewrite step_CallAllow in Hs. injection Hs as <- <-. simpl_fields.
    destruct (Z.lt_ge_cases 0 (tokens (bucket s))) as [Hpos | Hle].
    + rewrite (Allow_takes_token _ Hr Hpos). simpl_fields.
      unfold Int64.in_range, Int64.min_int in *. split_conj; auto; lia.
    + rewrite (Allow_refuses _ Hle). simpl_fields.
      split_conj; auto; lia.
  - simpl in Hs. rewrite Hx in Hs. injection Hs as <- <-. simpl_fields.
    split_conj; auto; lia.
  - simpl in Hs. injection Hs as <- <-. simpl_fields.
    split_conj; auto; lia.
  - simpl in Hs. rewrite Hx in Hs. discriminate.
Qed.

(** X2. After [refill] has returned, tokens are only spent: over every run
    the counter ends at what it was minus the number of admitted calls, so
    a run admits at most the tokens that were left (none when the counter
    is not positive), however many intervals elapse. *)
Theorem tokens_only_spent_after_exit (tr : list Event) (s s' : System)
        (rs : list bool) :
  refill s = Exited -> Int64.in_range (tokens (bucket s)) ->
  exec tr s = Some (rs, s') ->
  tokens (bucket s') = tokens (bucket s) - admitted rs /\
  admitted rs <= Z.max 0 (tokens (bucket s)).
Proof.
  revert s rs. induction tr as [ | e tr IH]; intros s rs Hx Hr Hrun.
  - simpl in Hrun. injection Hrun as <- <-. simpl_fields. lia.
  - apply exec_cons in Hrun. destruct Hrun as (o & s1 & rs' & Hs & Hrun & ->).
    destruct (exited_spends_step e s s1 o Hx Hr Hs) as (Hx1 & Hr1 & Ht1 & Hm1).
    destruct (IH s1 rs' Hx1 Hr1 Hrun) as (Ht' & Hb').
    rewrite admitted_emit.
    pose proof (admitted_bounds (emit o [])) as Ho.
    pose proof (admitted_bounds rs') as Hrs.
    lia.
Qed.

Lemma tokens_only_spent_after_exit_witness :
  let s := mkSystem (mkTokenBucket 10 1 1 2000000000) Exited false 0 1 in
  exec [IntervalElapsed; CallAllow; IntervalElapsed; CallAllow] s =
    Some ([true; false], mkSystem (mkTokenBucket 10 0 1 2000000000)
                                  Exited false 0 1) /\
  forall tr rs s',
    exec tr s = Some (rs, s') ->
    tokens (bucket s') = 1 - admitted rs /\ admitted rs <= 1.
Proof.
  intros s. split; [ reflexivity | ].
  intros tr rs s' Hrun.
  refine (tokens_only_spent_after_exit tr s s' rs _ _ Hrun).
  - reflexivity.
  - unfold Int64.in_range, Int64.min_int, Int64.max_int. simpl. lia.
Defined.

(** ** Bursts of any length *)

Lemma allow_n_all_true (k : nat) (tb : TokenBucket) :
  Int64.in_range (tokens tb) -> Z.of_nat k <= tokens tb ->
  allow_n k tb = (repeat true k, set_tokens (tokens tb - Z.of_nat k) tb).
Proof.
  revert tb. induction k as [ | k IH]; intros tb Hr Hk.
  - simpl. destruct tb as [c t r d]. unfold set_tokens. simpl.
    replace (t - 0) with t by lia. reflexivity.
  - cbn [allow_n repeat].
    rewrite (Allow_takes_token tb Hr) by lia.
    rewrite IH.
    + unfold set_tokens. simpl_fields.
      replace (tokens tb - 1 - Z.of_nat k) with (tokens tb - Z.of_nat (S k))
        by lia.
      reflexivity.
    + simpl_fields. unfold Int64.in_range, Int64.min_int in *. lia.
    + simpl_fields. lia.
Qed.

(** The shape of a burst: as many [true] as there are tokens, then
    [false]. *)
Lemma allow_n_shape (k : nat) (tb : TokenBucket) :
  Int64.in_range (tokens tb) ->
  let m := Z.to_nat (Z.min (Z.of_nat k) (Z.max 0 (tokens tb))) in
  allow_n k tb =
  (repeat true m ++ repeat false (k - m),
   set_tokens (tokens tb - Z.of_nat m) tb).
Proof.
  intros Hr m.
  destruct (Z.lt_ge_cases (tokens tb) (Z.of_nat k)) as [Hlt | Hge].
  - destruct (Z.lt_ge_cases 0 (tokens tb)) as [Hpos | Hle].
    + assert (Hm : tokens tb = Z.of_nat m) by (unfold m; lia).
      replace k with (m + (k - m))%nat at 1 by lia.
      rewrite (allow_n_drain m (k - m) tb Hr Hm).
      rewrite Hm. replace (Z.of_nat m - Z.of_nat m) with 0 by lia.
      reflexivity.
    + assert (Hm : m = O) by (unfold m; lia).
      rewrite Hm, allow_n_empty by lia. cbn [repeat app].
      replace (k - 0)%nat with k by lia.
      destruct tb as [c t r d]. unfold set_tokens. simpl.
      replace (t - 0) with t by lia. reflexivity.
  - assert (Hm : m = k) by (unfold m; lia).
    rewrite Hm, (allow_n_all_true k tb Hr Hge).
    replace (k - k)%nat with O by lia. cbn [repeat].
    rewrite app_nil_r. reflexivity.
Qed.

(** X3. With no tick in between, [k] calls of [Allow] on a bucket holding
    [t] tokens admit exactly [min k (max 0 t)] of them, the first ones, and
    reject all the later ones; the bucket loses exactly the admitted
    number of tokens.  However many callers there are, no token is given
    twice and none is lost. *)
Theorem burst_admits_min (k : nat) (tb : TokenBucket) :
  Int64.in_range (tokens tb) ->
  let m := Z.to_nat (Z.min (Z.of_nat k) (Z.max 0 (tokens tb))) in
  fst (allow_n k tb) = repeat true m ++ repeat false (k - m) /\
  admitted (fst (allow_n k tb)) = Z.min (Z.of_nat k) (Z.max 0 (tokens tb)) /\
  tokens (snd (allow_n k tb)) = tokens tb - admitted (fst (allow_n k tb)).
Proof.
  intros Hr m. rewrite (allow_n_shape k tb Hr). fold m. cbn [fst snd].
  rewrite admitted_app, !admitted_repeat. simpl_fields.
  split; [ reflexivity | ]. unfold m. lia.
Qed.

Lemma burst_admits_min_witness :
  fst (allow_n 5 (mkTokenBucket 10 3 1 2000000000)) =
    [true; true; true; false; false] /\
  admitted (fst (allow_n 5 (mkTokenBucket 10 3 1 2000000000))) = 3 /\
  tokens (snd (allow_n 5 (mkTokenBucket 10 3 1 2000000000))) =
    3 - admitted (fst (allow_n 5 (mkTokenBucket 10 3 1 2000000000))).
Proof.
  apply (burst_admits_min 5 (mkTokenBucket 10 3 1 2000000000)).
  unfold Int64.in_range, Int64.min_int, Int64.max_int. simpl. lia.
Defined.

(** X4. Idle time is not banked: on a bucket with [rate >= 0],
    [capacity + rate] within [int64] and [0 <= tokens <= capacity], after
    any run, however many intervals elapsed in it, a burst of calls with
    no tick in between admits at most [capacity] of them. *)
Theorem burst_never_exceeds_capacity (tr : list Event) (s s' : System)
        (rs : list bool) (k : nat) :
  sane (bucket s) ->
  exec tr s = Some (rs, s') ->
  admitted (fst (allow_n k (bucket s'))) <= capacity (bucket s).
Proof.
  intros Hsane Hrun.
  destruct (sane_exec tr s s' rs Hsane Hrun) as (Hsane' & _ & Hc & _).
  destruct (sane_in_range _ Hsane') as [Hr _].
  rewrite (allow_n_shape k (bucket s') Hr). cbn [fst].
  rewrite admitted_app, !admitted_repeat.
  unfold sane, bucket_inv in Hsane'. lia.
Qed.

Lemma burst_never_exceeds_capacity_witness :
  let s := mkSystem (mkTokenBucket 2 0 1 2000000000) Looping true 0 0 in
  exec [IntervalElapsed; IntervalElapsed; IntervalElapsed] s =
    Some ([], mkSystem (mkTokenBucket 2 2 1 2000000000) Looping true 0 0) /\
  forall tr rs s' k,
    exec tr s = Some (rs, s') ->
    admitted (fst (allow_n k (bucket s'))) <= 2.
Proof.
  intros s. split; [ reflexivity | ].
  intros tr rs s' k Hrun.
  refine (burst_never_exceeds_capacity tr s s' rs k _ Hrun).
  unfold sane, no_overflow, bucket_inv, Int64.max_int. simpl. lia.
Defined.

(** ** The life cycle of [refill] and the calls of [Stop] *)

Lemma signal_taken_once_step (e : Event) (s s' : System) (o : option bool) :
  signal_taken_once s -> step e s = Some (o, s') ->
  signal_taken_once s' /\
  (stop_senders s' + stop_returned s' =
   stop_senders s + stop_returned s + stop_calls [e])%nat.
Proof.
  intros Hco Hs. destruct e.
  - rewrite step_CallAllow in Hs. injection Hs as _ <-.
    unfold signal_taken_once in *. simpl_fields. split; [ exact Hco | lia ].
  - simpl in Hs.
    destruct (refill s) eqn:Hg; [ destruct (ticker_active s) eqn:Ha | ];
      injection Hs as _ <-; unfold signal_taken_once in *; simpl_fields;
      (split; [ exact Hco | lia ]).
  - simpl in Hs. injection Hs as _ <-.
    unfold signal_taken_once in *. simpl_fields. split; [ exact Hco | lia ].
  - simpl in Hs.
    destruct (refill s) eqn:Hg; [ destruct (stop_senders s) eqn:Hn | ];
      try discriminate.
    injection Hs as _ <-. unfold signal_taken_once in *. simpl_fields.
    destruct Hco as [(_ & Hret) | (Hcontra & _)]; [ | congruence ].
    split; [ right; auto | lia ].
Qed.

Lemma stop_calls_cons (e : Event) (tr : list Event) :
  stop_calls (e :: tr) = (stop_calls [e] + stop_calls tr)%nat.
Proof. destruct e; simpl; lia. Qed.

Lemma signal_taken_once_exec (tr : list Event) (s s' : System)
      (rs : list bool) :
  signal_taken_once s -> exec tr s = Some (rs, s') ->
  signal_taken_once s' /\
  (stop_senders s' + stop_returned s' =
   stop_senders s + stop_returned s + stop_calls tr)%nat.
Proof.
  revert s rs. induction tr as [ | e tr IH]; intros s rs Hco Hrun.
  - simpl in Hrun. injection Hrun as <- <-. simpl_fields.
    split; [ exact Hco | lia ].
  - apply exec_cons in Hrun. destruct Hrun as (o & s1 & rs' & Hs & Hrun & ->).
    destruct (signal_taken_once_step e s s1 o Hco Hs) as (Hco1 & Hn1).
    destruct (IH s1 rs' Hco1 Hrun) as (Hco' & Hn').
    rewrite stop_calls_cons. split; [ exact Hco' | lia ].
Qed.

(** X5. In every state reached from a new bucket at most one call of
    [Stop] has returned.  Every call of [Stop] made in the run has either
    returned or is blocked in its send: of [n] calls at most one returns
    and at least [n - 1] wait. *)
Theorem Stop_returns_at_most_once (r c d : Z) (s0 s : System)
        (tr : list Event) (rs : list bool) :
  NewTokenBucket r c d = Some s0 ->
  exec tr s0 = Some (rs, s) ->
  (stop_returned s <= 1)%nat /\
  (stop_senders s + stop_returned s = stop_calls tr)%nat /\
  (stop_calls tr - 1 <= stop_senders s)%nat.
Proof.
  intros Hnew Hrun.
  assert (Hco : signal_taken_once s0 /\
                stop_senders s0 = O /\ stop_returned s0 = O).
  { unfold NewTokenBucket, NewTicker in Hnew.
    destruct (d <=? 0); [ discriminate | ].
    injection Hnew as <-. unfold signal_taken_once. simpl_fields. auto. }
  destruct Hco as (Hco & Hn0 & Hr0).
  destruct (signal_taken_once_exec tr s0 s rs Hco Hrun) as (Hco' & Hn').
  assert (Hle : (stop_returned s <= 1)%nat).
  { destruct Hco' as [(_ & H) | (_ & H)]; lia. }
  split; [ exact Hle | ]. lia.
Qed.

Lemma Stop_returns_at_most_once_witness :
  exists s0 s,
    NewTokenBucket 1 10 2000000000 = Some s0 /\
    exec [CallStop; CallStop; RecvStop; CallStop] s0 = Some ([], s) /\
    stop_returned s = 1%nat /\ stop_senders s = 2%nat /\
    (stop_returned s <= 1)%nat.
Proof.
  eexists. eexists.
  split; [ reflexivity | ].
  assert (Hrun : exec [CallStop; CallStop; RecvStop; CallStop]
                   (mkSystem (mkTokenBucket 10 10 1 2000000000)
                             Looping true 0 0) =
                 Some ([], mkSystem (mkTokenBucket 10 10 1 2000000000)
                                    Exited false 2 1))
    by reflexivity.
  split; [ exact Hrun | ].
  split; [ reflexivity | ]. split; [ reflexivity | ].
  refine (proj1
    (Stop_returns_at_most_once 1 10 2000000000 _ _ _ _ _ Hrun)).
  reflexivity.
Defined.

(** ** The order of a call and a tick *)

(** X6. Away from the edges the order in which the mutex serves a call of
    [Allow] and a tick does not matter: with a token in the bucket,
    [rate >= 0] and room for the whole refill, both orders admit the call
    and leave the same bucket.  On a full bucket with [rate >= 1] the
    order shows: a tick handled first is lost to the clamp and the call
    leaves [capacity - 1] tokens, a tick handled second refills the token
    the call took. *)
Theorem Allow_and_tick_order (tb : TokenBucket) :
  Int64.in_range (capacity tb) -> 0 <= rate tb ->
  (0 < tokens tb -> tokens tb + rate tb <= capacity tb ->
   Allow (refill_tick tb) = (true, refill_tick (snd (Allow tb))) /\
   fst (Allow tb) = true) /\
  (0 < capacity tb -> tokens tb = capacity tb -> 1 <= rate tb ->
   capacity tb + rate tb <= Int64.max_int ->
   tokens (snd (Allow (refill_tick tb))) = capacity tb - 1 /\
   tokens (refill_tick (snd (Allow tb))) = capacity tb).
Proof.
  intros Hc Hrate. unfold Int64.in_range, Int64.min_int, Int64.max_int in Hc.
  split.
  - intros Hpos Hroom.
    assert (Hr : Int64.in_range (tokens tb))
      by (unfold Int64.in_range, Int64.min_int, Int64.max_int; lia).
    rewrite (Allow_takes_token tb Hr Hpos). cbn [fst snd].
    split; [ | reflexivity ].
    unfold refill_tick at 1. simpl_fields. unfold Int64.add.
    rewrite wrap_small
      by (unfold Int64.in_range, Int64.min_int, Int64.max_int; lia).
    destruct (Z.gtb_spec (tokens tb + rate tb) (capacity tb)); [ lia | ].
    rewrite Allow_takes_token; simpl_fields;
      [ | unfold Int64.in_range, Int64.min_int, Int64.max_int; lia | lia ].
    unfold refill_tick, set_tokens. simpl_fields. unfold Int64.add.
    rewrite wrap_small
      by (unfold Int64.in_range, Int64.min_int, Int64.max_int; lia).
    destruct (Z.gtb_spec (tokens tb - 1 + rate tb) (capacity tb)); [ lia | ].
    replace (tokens tb + rate tb - 1) with (tokens tb - 1 + rate tb) by lia.
    reflexivity.
  - intros Hcap Hfull Hone Hsum. unfold Int64.max_int in Hsum.
    assert (Hr : Int64.in_range (tokens tb))
      by (unfold Int64.in_range, Int64.min_int, Int64.max_int; lia).
    split.
    + assert (Ht : tokens (refill_tick tb) = capacity tb).
      { rewrite refill_tick_exact; [ lia | ].
        unfold Int64.in_range, Int64.min_int, Int64.max_int. lia. }
      rewrite Allow_takes_token; [ simpl_fields; lia | | lia ].
      rewrite Ht. unfold Int64.in_range, Int64.min_int, Int64.max_int. lia.
    + rewrite (Allow_takes_token tb Hr) by lia. cbn [snd].
      rewrite refill_tick_exact; simpl_fields; [ lia | ].
      unfold Int64.in_range, Int64.min_int, Int64.max_int. lia.
Qed.

Lemma Allow_and_tick_order_witness :
  Allow (refill_tick (mkTokenBucket 10 4 2 2000000000)) =
    (true, mkTokenBucket 10 5 2 2000000000) /\
  tokens (snd (Allow (refill_tick (mkTokenBucket 10 10 2 2000000000)))) = 9 /\
  tokens (refill_tick (snd (Allow (mkTokenBucket 10 10 2 2000000000)))) = 10.
Proof.
  split.
  - refine (proj1 (proj1
      (Allow_and_tick_order (mkTokenBucket 10 4 2 2000000000) _ _) _ _));
      unfold Int64.in_range, Int64.min_int, Int64.max_int; simpl; lia.
  - refine (proj2
      (Allow_and_tick_order (mkTokenBucket 10 10 2 2000000000) _ _)
      _ _ _ _);
      unfold Int64.in_range, Int64.min_int, Int64.max_int; simpl; lia.
Defined.

(** ** Saturating demand *)

(** One interval on an empty bucket under saturating demand: the refill
    is spent within the interval and the system is back where it was. *)
Lemma cycle_exec (k : nat) (s : System) :
  refill s = Looping -> ticker_active s = true ->
  0 <= capacity (bucket s) <= Int64.max_int ->
  0 <= rate (bucket s) <= Int64.max_int ->
  tokens (bucket s) = 0 ->
  Z.min (rate (bucket s)) (capacity (bucket s)) <= Z.of_nat k ->
  exists rs,
    exec (cycle k) s = Some (rs, s) /\
    admitted rs = Z.min (rate (bucket s)) (capacity (bucket s)) /\
    length rs = k.
Proof.
  intros Hg Ha Hc Hr H0 Hk. unfold Int64.max_int in *.
  set (m := Z.to_nat (Z.min (rate (bucket s)) (capacity (bucket s)))).
  assert (Ht : tokens (refill_tick (bucket s)) = Z.of_nat m).
  { rewrite refill_tick_exact; rewrite H0.
    - unfold m. lia.
    - unfold Int64.in_range, Int64.min_int, Int64.max_int. lia. }
  assert (Hrun : allow_n k (refill_tick (bucket s)) =
                 (repeat true m ++ repeat false (k - m),
                  set_tokens 0 (refill_tick (bucket s)))).
  { replace k with (m + (k - m))%nat at 1 by (unfold m; lia).
    apply allow_n_drain; [ | exact Ht ].
    rewrite Ht. unfold Int64.in_range, Int64.min_int, Int64.max_int.
    unfold m. lia. }
  exists (repeat true m ++ repeat false (k - m)).
  split; [ | split ].
  - unfold cycle. cbn [exec]. cbn [step]. rewrite Hg, Ha.
    rewrite exec_CallAllow. cbn [bucket with_bucket]. rewrite Hrun.
    cbn [fst snd emit]. do 2 f_equal.
    destruct s as [[c t r d] g a n1 n2]. simpl in *. subst t. reflexivity.
  - rewrite admitted_app, !admitted_repeat. unfold m. lia.
  - rewrite length_app, !repeat_length. unfold m. lia.
Qed.

(** X7. On an empty bucket whose [refill] is running, with
    [0 <= rate] and [0 <= capacity], when in each of [n] intervals the
    tick is followed by [k >= min rate capacity] calls of [Allow], the
    [n * k] calls admit exactly [n * min rate capacity] of them and the
    system ends in the state it started in: the sustained throughput is
    [min rate capacity] per interval. *)
Theorem saturated_throughput (n k : nat) (s : System) :
  refill s = Looping -> ticker_active s = true ->
  0 <= capacity (bucket s) <= Int64.max_int ->
  0 <= rate (bucket s) <= Int64.max_int ->
  tokens (bucket s) = 0 ->
  Z.min (rate (bucket s)) (capacity (bucket s)) <= Z.of_nat k ->
  exists rs,
    exec (concat (repeat (cycle k) n)) s = Some (rs, s) /\
    admitted rs =
      Z.of_nat n * Z.min (rate (bucket s)) (capacity (bucket s)) /\
    length rs = (n * k)%nat.
Proof.
  intros Hg Ha Hc Hr H0 Hk.
  destruct (cycle_exec k s Hg Ha Hc Hr H0 Hk) as (rs1 & Hrun1 & Hadm1 & Hlen1).
  induction n as [ | n IH].
  - exists []. simpl. split_conj; auto.
  - destruct IH as (rs & Hrun & Hadm & Hlen).
    exists (rs1 ++ rs). cbn [repeat concat].
    rewrite exec_app, Hrun1, Hrun.
    split; [ reflexivity | ].
    rewrite admitted_app, length_app, Hadm1, Hadm, Hlen1, Hlen.
    split; lia.
Qed.

Lemma saturated_throughput_witness :
  exists rs,
    exec (concat (repeat (cycle 3) 4))
         (mkSystem (mkTokenBucket 10 0 2 2000000000) Looping true 0 0) =
      Some (rs, mkSystem (mkTokenBucket 10 0 2 2000000000) Looping true 0 0) /\
    admitted rs = 4 * 2 /\ length rs = 12%nat.
Proof.
  apply (saturated_throughput 4 3
           (mkSystem (mkTokenBucket 10 0 2 2000000000) Looping true 0 0));
    unfold Int64.max_int; simpl; try reflexivity; lia.
Defined.

(** ** A negative rate *)

(** X8. The constructor takes a negative [rate] as it is, and then a tick
    takes tokens away: on a bucket with [0 <= tokens <= capacity] it
    lowers the counter by [- rate] with no clamp, below zero when
    [tokens < - rate], and a counter that is not positive makes the next
    call of [Allow] return [false]. *)
Theorem negative_rate_drains (tb : TokenBucket) :
  Int64.in_range (rate tb) -> Int64.in_range (capacity tb) ->
  rate tb < 0 -> 0 <= tokens tb <= capacity tb ->
  tokens (refill_tick tb) = tokens tb + rate tb /\
  tokens (refill_tick tb) < tokens tb /\
  (tokens tb + rate tb <= 0 -> fst (Allow (refill_tick tb)) = false).
Proof.
  intros Hr Hc Hneg Hinv.
  assert (Ht : tokens (refill_tick tb) = tokens tb + rate tb).
  { rewrite refill_tick_exact; [ lia | ].
    unfold Int64.in_range, Int64.min_int, Int64.max_int in *. lia. }
  split; [ exact Ht | ]. split; [ lia | ].
  intros Hle. rewrite Allow_refuses; [ reflexivity | lia ].
Qed.

Lemma negative_rate_drains_witness :
  tokens (refill_tick (mkTokenBucket 10 2 (-3) 2000000000)) = 2 + -3 /\
  tokens (refill_tick (mkTokenBucket 10 2 (-3) 2000000000)) < 2 /\
  fst (Allow (refill_tick (mkTokenBucket 10 2 (-3) 2000000000))) = false.
Proof.
  destruct (negative_rate_drains (mkTokenBucket 10 2 (-3) 2000000000))
    as (H1 & H2 & H3);
    try (unfold Int64.in_range, Int64.min_int, Int64.max_int; simpl; lia).
  split; [ exact H1 | ]. split; [ exact H2 | ].
  apply H3. simpl. lia.
Defined.

(** ** The HTTP service *)

Lemma on_interval_step (s : System) :
  step IntervalElapsed s = Some (None, on_interval s).
Proof.
  unfold on_interval. simpl.
  destruct (refill s); [ destruct (ticker_active s) | ]; reflexivity.
Qed.

Lemma limited_handler_Allow (s : System) :
  limited_handler s =
  (limited_response (fst (Allow (bucket s))),
   with_bucket (snd (Allow (bucket s))) s).
Proof.
  unfold limited_handler, limited_response.
  destruct (Allow (bucket s)) as [[ | ] tb]; reflexivity.
Qed.

Lemma count_ok_limited (rs : list bool) :
  count_ok (map limited_response rs) = admitted rs.
Proof.
  induction rs as [ | [ | ] rs IH]; cbn [map count_ok admitted];
    [ reflexivity | | ]; rewrite IH; reflexivity.
Qed.

Lemma ticks_limiter_trace (evs : list ServerEvent) :
  ticks (limiter_trace evs) = intervals evs.
Proof.
  induction evs as [ | [[ | ] | ] evs IH]; cbn [limiter_trace ticks intervals];
    lia.
Qed.

(** A run of the server is a run of the limiter: its ["/limited"]
    requests are the calls of [Allow], in order. *)
Lemma serve_exec (evs : list ServerEvent) (s : System) :
  exists rs,
    exec (limiter_trace evs) s = Some (rs, snd (serve evs s)) /\
    responses_on Limited (fst (serve evs s)) = map limited_response rs.
Proof.
  revert s. induction evs as [ | [[ | ] | ] evs IH]; intros s.
  - exists []. split; reflexivity.
  - cbn [serve limiter_trace handle exec].
    rewrite limited_handler_Allow, step_CallAllow.
    destruct (IH (with_bucket (snd (Allow (bucket s))) s)) as (rs & Hrun & Hresp).
    destruct (serve evs (with_bucket (snd (Allow (bucket s))) s))
      as [out s2] eqn:Hserve.
    cbn [fst snd] in *. rewrite Hrun.
    exists (fst (Allow (bucket s)) :: rs).
    split; [ reflexivity | ].
    cbn [responses_on map]. rewrite Hresp. reflexivity.
  - cbn [serve limiter_trace handle]. unfold unlimited_handler.
    destruct (IH s) as (rs & Hrun & Hresp).
    destruct (serve evs s) as [out s2] eqn:Hserve.
    cbn [fst snd] in *. exists rs.
    split; [ exact Hrun | ]. cbn [responses_on]. exact Hresp.
  - cbn [serve limiter_trace exec]. rewrite on_interval_step.
    destruct (IH (on_interval s)) as (rs & Hrun & Hresp).
    rewrite Hrun. exists rs. split; [ reflexivity | exact Hresp ].
Qed.

(** X9. Whatever requests arrive and whenever intervals elapse, the
    responses of ["/limited"] are, in order, the results of the calls of
    [Allow] in the corresponding run of the limiter: status 200 with
    ["Request was processed."] for [true], status 429 with
    ["Too Many Requests."] for [false].  The responses with status 200 are
    as many as the admitted calls, and the limiter ends in the same state. *)
Theorem limited_responses_follow_Allow (evs : list ServerEvent) (s : System) :
  exists rs,
    exec (limiter_trace evs) s = Some (rs, snd (serve evs s)) /\
    responses_on Limited (fst (serve evs s)) = map limited_response rs /\
    count_ok (responses_on Limited (fst (serve evs s))) = admitted rs /\
    Forall (fun resp => status resp = StatusOK \/
                        status resp = StatusTooManyRequests)
           (responses_on Limited (fst (serve evs s))).
Proof.
  destruct (serve_exec evs s) as (rs & Hrun & Hresp).
  exists rs. split; [ exact Hrun | ]. split; [ exact Hresp | ].
  rewrite Hresp. split; [ apply count_ok_limited | ].
  apply Forall_forall. intros resp Hin. apply in_map_iff in Hin.
  destruct Hin as ([ | ] & <- & _); simpl; auto.
Qed.

(** X10. Requests for ["/unlimited"] are answered 200 with the same body
    every time, also when the bucket is empty, and they are invisible to
    the limiter: a run of the server without them ends in the same state
    and gives the same responses on ["/limited"]. *)
Theorem unlimited_requests_are_free (evs : list ServerEvent) (s : System) :
  snd (serve (without_unlimited evs) s) = snd (serve evs s) /\
  responses_on Limited (fst (serve (without_unlimited evs) s)) =
    responses_on Limited (fst (serve evs s)) /\
  Forall (fun resp =>
            resp = mkResponse StatusOK
                              (Fprintln "Unlimited request was processed."))
         (responses_on Unlimited (fst (serve evs s))).
Proof.
  revert s. induction evs as [ | [[ | ] | ] evs IH]; intros s.
  - simpl. auto.
  - cbn [serve without_unlimited handle].
    destruct (limited_handler s) as [resp s1].
    destruct (IH s1) as (Hs & Hl & Hu).
    destruct (serve (without_unlimited evs) s1) as [out1 s2].
    destruct (serve evs s1) as [out s3].
    cbn [fst snd responses_on] in *.
    split; [ exact Hs | ]. split; [ congruence | exact Hu ].
  - cbn [serve without_unlimited handle]. unfold unlimited_handler.
    destruct (IH s) as (Hs & Hl & Hu).
    destruct (serve (without_unlimited evs) s) as [out1 s2].
    destruct (serve evs s) as [out s3].
    cbn [fst snd responses_on] in *.
    split; [ exact Hs | ]. split; [ exact Hl | ].
    constructor; [ reflexivity | exact Hu ].
  - cbn [serve without_unlimited]. apply IH.
Qed.

(** X11. The service keeps the limit: on a bucket with [rate >= 0],
    [capacity + rate] within [int64] and [0 <= tokens <= capacity], however
    the requests and the intervals are interleaved, the requests for
    ["/limited"] answered with status 200 are at most the tokens at the
    start plus [rate] for every elapsed interval. *)
Theorem ok_responses_within_budget (evs : list ServerEvent) (s : System) :
  sane (bucket s) ->
  count_ok (responses_on Limited (fst (serve evs s))) <=
  tokens (bucket s) + intervals evs * rate (bucket s).
Proof.
  intros Hsane.
  destruct (serve_exec evs s) as (rs & Hrun & Hresp).
  destruct (sane_exec _ s _ rs Hsane Hrun) as (Hsane' & _ & _ & Hb).
  rewrite Hresp, count_ok_limited.
  rewrite ticks_limiter_trace in Hb.
  unfold sane, bucket_inv in Hsane'. lia.
Qed.

(** The service as [main] configures it: at most ten requests, and one
    more for every two seconds gone by. *)
Lemma ok_responses_within_budget_witness :
  exists s0,
    main_limiter = Some s0 /\
    bucket s0 = mkTokenBucket 10 10 1 2000000000 /\
    forall evs,
      count_ok (responses_on Limited (fst (serve evs s0))) <=
      10 + intervals evs * 1.
Proof.
  eexists. split; [ reflexivity | ]. split; [ reflexivity | ].
  intros evs.
  refine (ok_responses_within_budget evs _ _).
  unfold sane, no_overflow, bucket_inv, Int64.max_int. simpl. lia.
Defined.

(** ** Overflow on a full bucket, at a concrete configuration *)

Lemma full_bucket_overflows_witness :
  tokens (refill_tick (mkTokenBucket Int64.max_int Int64.max_int 5 2000000000)) =
    Int64.max_int + 5 - Int64.modulus /\
  tokens (refill_tick (mkTokenBucket Int64.max_int Int64.max_int 5 2000000000)) < 0.
Proof.
  apply (full_bucket_overflows
           (mkTokenBucket Int64.max_int Int64.max_int 5 2000000000)).
  - unfold well_typed, Int64.in_range, Int64.min_int, Int64.max_int.
    simpl. lia.
  - reflexivity.
  - reflexivity.
  - reflexivity.
  - unfold no_overflow, Int64.max_int. simpl. lia.
Defined.
